(** * Topic index of the websocket broker: the [bst] package

    A shallow embedding of the binary search tree that maps a topic to
    the connections (uuids) subscribed to it, and the properties its
    description states about [Insert], [Get] and [Remove]. *)

From Stdlib Require OrderedTypeEx.
From stdpp Require Import gmap strings list fin_maps.

Local Open Scope string_scope.

(** ** Data model *)

(** A Go [map[string]struct{}] is a reference: several nodes may hold the
    same map.  Maps therefore live in a store, and a node holds either the
    nil map or the address of one. *)
Definition loc := positive.

Abbreviation store := (gmap loc (gset string)).

(** [*BST]: [Nil] is the nil pointer, [Node] a pointer to a struct with the
    fields [topic], [uuids], [left], [right].  Nodes are never shared: every
    assignment to a [left] or [right] field in the package either links a
    node allocated on the spot or moves a child of a node that is unlinked
    by the same statement group, so the pointer structure is a tree and the
    test [parent.left == curr] holds exactly when [curr] was reached through
    [parent.left]. *)
Inductive BST : Type :=
| Nil
| Node (topic : string) (uuids : option loc) (left right : BST).

(** The index: the root pointer and the maps it can reach. *)
Record Storage : Type := MkStorage { root : BST; maps : store }.

(** Go's [==], [<] and [>] on strings: byte-wise lexicographic order. *)
Definition str_eq (a b : string) : bool := String.eqb a b.
Definition str_lt (a b : string) : bool := String.ltb a b.
Definition str_gt (a b : string) : bool := String.ltb b a.

(** Reading a map: the nil map and a missing address read as empty. *)
Definition load (h : store) (u : option loc) : gset string :=
  match u with
  | None => ∅
  | Some p => default ∅ (h !! p)
  end.

(** [len(m)] *)
Definition len (h : store) (u : option loc) : nat := size (load h u).

(** [_, ok := m[k]] *)
Definition has_key (h : store) (u : option loc) (k : string) : bool :=
  bool_decide (k ∈ load h u).

(** [m[k] = struct{}{}]: panics on the nil map. *)
Definition map_set (h : store) (u : option loc) (k : string) : option store :=
  match u with
  | None => None
  | Some p => Some (<[p := {[k]} ∪ load h u]> h)
  end.

(** [delete(m, k)]: does nothing on the nil map. *)
Definition map_delete (h : store) (u : option loc) (k : string) : store :=
  match u with
  | None => h
  | Some p => <[p := load h u ∖ {[k]}]> h
  end.

(** [map[string]struct{}{k: {}}]: a new map at an unused address. *)
Definition map_alloc (h : store) : loc := fresh (dom h).

(** ** Operations *)

(** [NewBST]: [&BST{}], every field at its zero value. *)
Definition NewBST : Storage := MkStorage (Node "" None Nil Nil) ∅.

(** The [for] loop of [Insert], one node per recursive call.  [None] is a
    run-time panic: a nil receiver, or an assignment into the nil map. *)
Fixpoint Insert_loop (uuid topic : string) (curr : BST) (h : store)
  : option (BST * store) :=
  match curr with
  | Nil => None
  | Node ct cu l r =>
      if str_eq ct topic then
        h' ← map_set h cu uuid; Some (Node ct cu l r, h')
      else if str_lt ct topic then
        match l with
        | Nil =>
            let p := map_alloc h in
            Some (Node ct cu (Node topic (Some p) Nil Nil) r, <[p := {[uuid]}]> h)
        | Node _ _ _ _ =>
            '(l', h') ← Insert_loop uuid topic l h; Some (Node ct cu l' r, h')
        end
      else
        match r with
        | Nil =>
            let p := map_alloc h in
            Some (Node ct cu l (Node topic (Some p) Nil Nil), <[p := {[uuid]}]> h)
        | Node _ _ _ _ =>
            '(r', h') ← Insert_loop uuid topic r h; Some (Node ct cu l r', h')
        end
  end.

Definition Insert (uuid topic : string) (b : Storage) : option Storage :=
  '(t, h) ← Insert_loop uuid topic (root b) (maps b); Some (MkStorage t h).

(** The loop of [Get]: the map held by the node found, nil otherwise.  The
    three tests [==], [<], [>] are exhaustive on strings, so the loop
    always moves on. *)
Fixpoint Get_loop (topic : string) (curr : BST) : option loc :=
  match curr with
  | Nil => None
  | Node ct cu l r =>
      if str_eq ct topic then cu
      else if str_lt ct topic then Get_loop topic l
      else Get_loop topic r
  end.

(** [Get]: the returned map as the caller reads it; nil (and a node whose
    map is nil) is [None]. *)
Definition Get (topic : string) (b : Storage) : option (gset string) :=
  p ← Get_loop topic (root b); Some (load (maps b) (Some p)).

(** [traverseForMinString]: panics on a nil receiver. *)
Fixpoint traverseForMinString (b : BST) : option (string * option loc) :=
  match b with
  | Nil => None
  | Node t u Nil _ => Some (t, u)
  | Node _ _ l _ => traverseForMinString l
  end.

(** [removeHelper].  [has_parent] is [parent != nil]; the result is the
    subtree that stands where [b] stood once the call returns (for the root,
    whose fields are overwritten in place, the node [b] itself). *)
Fixpoint removeHelper (uuid topic : string) (has_parent : bool) (b : BST) (h : store)
  : option (BST * store) :=
  match b with
  | Nil => Some (Nil, h)
  | Node ct cu l r =>
      if str_lt topic ct then
        '(l', h') ← removeHelper uuid topic true l h; Some (Node ct cu l' r, h')
      else if str_gt topic ct then
        '(r', h') ← removeHelper uuid topic true r h; Some (Node ct cu l r', h')
      else if (1 <? len h cu)%nat && has_key h cu uuid then
        Some (Node ct cu l r, map_delete h cu uuid)
      else
        match l, r with
        | Node _ _ _ _, Node _ _ _ _ =>
            '(st, su) ← traverseForMinString r;
            '(r', h') ← removeHelper st uuid true r h;
            Some (Node st su l r', h')
        | Node _ _ _ _, Nil => Some (l, h)
        | Nil, Node _ _ _ _ => Some (r, h)
        | Nil, Nil => if has_parent then Some (Nil, h) else Some (Node ct cu l r, h)
        end
  end.

Definition Remove (uuid topic : string) (b : Storage) : option Storage :=
  '(t, h) ← removeHelper uuid topic false (root b) (maps b); Some (MkStorage t h).

(** ** Call sequences *)

(** A call made by the surrounding broker. *)
Inductive call : Type :=
| CInsert (uuid topic : string)
| CGet (topic : string)
| CRemove (uuid topic : string).

(** One call; [Get] only reads. *)
Definition step (c : call) (b : Storage) : option Storage :=
  match c with
  | CInsert uuid topic => Insert uuid topic b
  | CGet _ => Some b
  | CRemove uuid topic => Remove uuid topic b
  end.

(** A sequence of calls, stopping at the first panic. *)
Fixpoint run (cs : list call) (b : Storage) : option Storage :=
  match cs with
  | [] => Some b
  | c :: cs' => b' ← step c b; run cs' b'
  end.

(** The identifiers inserted on [T] and not removed since, read off the
    call sequence alone. *)
Fixpoint subscribed (cs : list call) (T : string) (acc : gset string) : gset string :=
  match cs with
  | [] => acc
  | CInsert uuid topic :: cs' =>
      subscribed cs' T (if decide (topic = T) then acc ∪ {[uuid]} else acc)
  | CRemove uuid topic :: cs' =>
      subscribed cs' T (if decide (topic = T) then acc ∖ {[uuid]} else acc)
  | CGet _ :: cs' => subscribed cs' T acc
  end.

(** ** Observations on trees *)

(** The nodes of a tree, left to right: topic and map of each. *)
Fixpoint nodes (t : BST) : list (string * option loc) :=
  match t with
  | Nil => []
  | Node ct cu l r => nodes l ++ (ct, cu) :: nodes r
  end.

Definition topics (t : BST) : list string := (nodes t).*1.

(** How many nodes carry [topic]. *)
Definition count_topic (topic : string) (t : BST) : nat :=
  length (filter (λ x, x = topic) (topics t)).

(** The nodes strictly below the root. *)
Definition below_root (t : BST) : list (string * option loc) :=
  match t with
  | Nil => []
  | Node _ _ l r => nodes l ++ nodes r
  end.

(** The map field of the root node. *)
Definition root_uuids (t : BST) : option loc :=
  match t with
  | Nil => None
  | Node _ cu _ _ => cu
  end.

(** The subscriber set of a node is not empty. *)
Definition subscribers_nonempty (h : store) (n : string * option loc) : Prop :=
  load h n.2 ≠ ∅.

(** Every node of the index has a non-empty subscriber set. *)
Definition all_nonempty (b : Storage) : Prop :=
  Forall (subscribers_nonempty (maps b)) (nodes (root b)).

(** ** Invariants *)

(** No map of the store is empty. *)
Definition store_ok (h : store) : Prop := ∀ p s, h !! p = Some s → s ≠ ∅.

(** A map field holding the address of a map of the store. *)
Definition ref_ok (h : store) (u : option loc) : Prop :=
  ∃ p, u = Some p ∧ p ∈ dom h.

(** Every node holds a map of the store; with [nil_ok] the topmost node may
    still hold the nil map it was constructed with. *)
Fixpoint tree_ok (nil_ok : bool) (h : store) (t : BST) : Prop :=
  match t with
  | Nil => True
  | Node _ cu l r =>
      (ref_ok h cu ∨ (nil_ok = true ∧ cu = None))
      ∧ tree_ok false h l ∧ tree_ok false h r
  end.

(** The topic field of the root node. *)
Definition root_topic (t : BST) : string :=
  match t with
  | Nil => ""
  | Node ct _ _ _ => ct
  end.

(** A root that holds the nil map still carries the topic "" it was
    constructed with. *)
Definition root_fresh (t : BST) : Prop :=
  root_uuids t = None → root_topic t = "".

(** What holds of every index reached from [NewBST]. *)
Definition index_ok (b : Storage) : Prop :=
  store_ok (maps b) ∧ tree_ok true (maps b) (root b)
  ∧ root b ≠ Nil ∧ root_fresh (root b).

(** ** Scenarios *)

Definition scenario_A : list call :=
  [CInsert "u1" "orders"; CInsert "u2" "orders"; CInsert "u1" "alerts"].

Definition scenario_B : list call :=
  scenario_A ++ [CRemove "u1" "orders"].

(** Two subscribers on one topic, one of them leaving. *)
Definition two_then_leave : list call :=
  [CInsert "u1" "a"; CInsert "u2" "a"; CRemove "u2" "a"].

(** A root for topic "a" with two subscribers and one child. *)
Definition shared_topic : list call :=
  [CInsert "u1" "a"; CRemove "x" ""; CInsert "u2" "a"; CInsert "u1" "b"].

(** A root for topic "m" with both children. *)
Definition two_children : list call :=
  [CInsert "u1" "m"; CRemove "x" ""; CInsert "u2" "b"; CInsert "u3" "z"].

(** ** Further observations *)

(** The order in which [Insert] places topics: the left subtree of a node
    holds the topics greater than the node's, the right subtree the lesser
    ones. *)
Fixpoint ordered (t : BST) : Prop :=
  match t with
  | Nil => True
  | Node ct _ l r =>
      Forall (λ x, str_lt ct x = true) (topics l)
      ∧ Forall (λ x, str_lt x ct = true) (topics r)
      ∧ ordered l ∧ ordered r
  end.

(** A map is held by nodes of one topic only. *)
Definition maps_keyed (t : BST) : Prop :=
  ∀ T1 T2 p, (T1, Some p) ∈ nodes t → (T2, Some p) ∈ nodes t → T1 = T2.

(** The topic a call names. *)
Definition call_topic (c : call) : string :=
  match c with
  | CInsert _ topic => topic
  | CGet topic => topic
  | CRemove _ topic => topic
  end.

(** A call sequence without its [Remove] calls. *)
Fixpoint drop_removes (cs : list call) : list call :=
  match cs with
  | [] => []
  | CRemove _ _ :: cs' => drop_removes cs'
  | c :: cs' => c :: drop_removes cs'
  end.

(** The identifiers a call sequence inserts on [T]. *)
Fixpoint inserted (cs : list call) (T : string) : gset string :=
  match cs with
  | [] => ∅
  | CInsert uuid topic :: cs' =>
      (if decide (topic = T) then {[uuid]} else ∅) ∪ inserted cs' T
  | _ :: cs' => inserted cs' T
  end.

(** What [Get] returns once the identifiers [s] have been inserted on a
    topic for which it returned [o]. *)
Definition merge (o : option (gset string)) (s : gset string) : option (gset string) :=
  if decide (s = ∅) then o else Some (default ∅ o ∪ s).

(** ** Trusted subnets of the HTTP service configuration *)

(** What [parseCIDRs] and [IsTrusted] use of Go's [net] package:
    [net.ParseCIDR] (the network it returns, or an error), [net.ParseIP]
    (nil on a malformed address) and the method [Contains] of [IPNet]. *)
Class Net : Type := MkNet {
  IPNet : Type;
  IP : Type;
  error : Type;
  ParseCIDR : string → error + IPNet;
  ParseIP : string → option IP;
  Contains : IPNet → IP → bool
}.

(** The fields of [Config] that the two methods read and write:
    [TrustedSubnets], and [cidrs], a slice that is nil ([None]) until
    something is appended to it. *)
Record Config `{Net} : Type := MkConfig {
  TrustedSubnets : list string;
  cidrs : option (list IPNet)
}.

(** [append(s, x)] *)
Definition slice_append `{Net} (s : option (list IPNet)) (x : IPNet)
  : option (list IPNet) :=
  Some (default [] s ++ [x])%list.

(** The loop of [parseCIDRs] over the subnets still to parse: the slice it
    leaves in [c.cidrs] and the error it returns ([None] is nil). *)
Fixpoint parseCIDRs_loop `{Net} (subnets : list string) (cs : option (list IPNet))
  : option (list IPNet) * option error :=
  match subnets with
  | [] => (cs, None)
  | cidr :: rest =>
      match ParseCIDR cidr with
      | inl err => (cs, Some err)
      | inr cr => parseCIDRs_loop rest (slice_append cs cr)
      end
  end.

Definition parseCIDRs `{Net} (c : Config) : Config * option error :=
  let '(cs, err) := parseCIDRs_loop (TrustedSubnets c) (cidrs c) in
  (MkConfig _ (TrustedSubnets c) cs, err).

Definition IsTrusted `{Net} (c : Config) (ip : string) : bool :=
  match cidrs c with
  | None => false
  | Some nets =>
      match ParseIP ip with
      | None => false
      | Some i => existsb (λ cird, Contains cird i) nets
      end
  end.

(** A small instance to run the definitions on: a network is a prefix of
    the addresses it contains, and the empty string parses as neither. *)
Definition prefix_net : Net :=
  MkNet string string string
    (λ s, if decide (s = "") then inl "invalid CIDR address" else inr s)
    (λ s, if decide (s = "") then None else Some s)
    String.prefix.

(** A configuration whose subnets all parse, and one with a subnet that
    does not. *)
Definition two_subnets : @Config prefix_net :=
  @MkConfig prefix_net ["10."; "192.168."] None.

Definition broken_subnet : @Config prefix_net :=
  @MkConfig prefix_net ["10."; ""; "172."] None.

(** Invert a completed step [Some _ ≫= _ = Some _]. *)
Local Ltac some_inv := cbn [mbind option_bind]; intros ?; simplify_eq.

(** ** String comparison *)

Lemma str_eq_true a b : str_eq a b = true ↔ a = b.
Proof. apply String.eqb_eq. Qed.

Lemma str_eq_refl a : str_eq a a = true.
Proof. apply String.eqb_refl. Qed.

Lemma str_lt_irrefl a : str_lt a a = false.
Proof.
  unfold str_lt, String.ltb. pose proof (String.compare_antisym a a) as H.
  by destruct (String.compare a a).
Qed.

Lemma str_lt_flip a b : str_lt a b = true → str_eq b a = false ∧ str_lt b a = false.
Proof.
  intros Hlt. split.
  - apply String.eqb_neq. intros ->. by rewrite str_lt_irrefl in Hlt.
  - revert Hlt. unfold str_lt, String.ltb. rewrite (String.compare_antisym a b).
    by destruct (String.compare b a).
Qed.

Lemma str_trichotomy a b : str_lt a b = false → str_gt a b = false → a = b.
Proof.
  unfold str_gt, str_lt, String.ltb. rewrite (String.compare_antisym b a).
  intros Hlt Hgt. apply String.compare_eq_iff.
  by destruct (String.compare a b).
Qed.

Lemma str_lt_empty a : a ≠ "" → str_lt "" a = true.
Proof. by destruct a. Qed.

(** ** Unfolding equations and termination *)

Lemma Insert_loop_Node (uuid topic ct : string) (cu : option loc) (l r : BST) (h : store) :
  Insert_loop uuid topic (Node ct cu l r) h =
  if str_eq ct topic then h' ← map_set h cu uuid; Some (Node ct cu l r, h')
  else if str_lt ct topic then
    match l with
    | Nil => Some (Node ct cu (Node topic (Some (map_alloc h)) Nil Nil) r,
                   <[map_alloc h := {[uuid]}]> h)
    | Node _ _ _ _ =>
        '(l', h') ← Insert_loop uuid topic l h; Some (Node ct cu l' r, h')
    end
  else
    match r with
    | Nil => Some (Node ct cu l (Node topic (Some (map_alloc h)) Nil Nil),
                   <[map_alloc h := {[uuid]}]> h)
    | Node _ _ _ _ =>
        '(r', h') ← Insert_loop uuid topic r h; Some (Node ct cu l r', h')
    end.
Proof. done. Qed.

Lemma removeHelper_Node (uuid topic ct : string) (has_parent : bool)
    (cu : option loc) (l r : BST) (h : store) :
  removeHelper uuid topic has_parent (Node ct cu l r) h =
  if str_lt topic ct then
    '(l', h') ← removeHelper uuid topic true l h; Some (Node ct cu l' r, h')
  else if str_gt topic ct then
    '(r', h') ← removeHelper uuid topic true r h; Some (Node ct cu l r', h')
  else if (1 <? len h cu)%nat && has_key h cu uuid then
    Some (Node ct cu l r, map_delete h cu uuid)
  else
    match l, r with
    | Node _ _ _ _, Node _ _ _ _ =>
        '(st, su) ← traverseForMinString r;
        '(r', h') ← removeHelper st uuid true r h;
        Some (Node st su l r', h')
    | Node _ _ _ _, Nil => Some (l, h)
    | Nil, Node _ _ _ _ => Some (r, h)
    | Nil, Nil => if has_parent then Some (Nil, h) else Some (Node ct cu l r, h)
    end.
Proof. done. Qed.

Lemma traverseForMinString_completes (t : BST) :
  t ≠ Nil → is_Some (traverseForMinString t).
Proof.
  induction t as [|ct cu l IHl r _]; [done|]. intros _. cbn [traverseForMinString].
  destruct l as [|lt lu ll lr]; [done|]. by apply IHl.
Qed.

(** [removeHelper] always returns: the receiver of [traverseForMinString]
    is a node, and every other step is a comparison or an assignment. *)
Lemma removeHelper_completes (uuid topic : string) (has_parent : bool)
    (t : BST) (h : store) :
  is_Some (removeHelper uuid topic has_parent t h).
Proof.
  revert uuid topic has_parent h.
  induction t as [|ct cu l IHl r IHr]; intros uuid topic has_parent h; [done|].
  rewrite removeHelper_Node. destruct (str_lt topic ct).
  { by destruct (IHl uuid topic true h) as [[l1 h1] ->]. }
  destruct (str_gt topic ct).
  { by destruct (IHr uuid topic true h) as [[r1 h1] ->]. }
  destruct ((1 <? len h cu)%nat && has_key h cu uuid); [done|].
  destruct l as [|lt lu ll lr], r as [|rt ru rl rr]; try done.
  - by destruct has_parent.
  - destruct (traverseForMinString_completes (Node rt ru rl rr)) as [[st su] ->];
      [done|].
    cbn [mbind option_bind].
    by destruct (IHr st uuid true h) as [[r1 h1] ->].
Qed.

(** ** Scenario A and the fresh index *)

(** C7: after Insert(u1,orders), Insert(u2,orders), Insert(u1,alerts) on a
    fresh index, Get(orders) is {u1,u2}, Get(alerts) is {u1} and Get(billing)
    is not found. *)
Theorem C7_scenario_A :
  ∃ b, run scenario_A NewBST = Some b
       ∧ Get "orders" b = Some {[ "u1"; "u2" ]}
       ∧ Get "alerts" b = Some {[ "u1" ]}
       ∧ Get "billing" b = None.
Proof. eexists. split; [vm_compute; reflexivity|]. by vm_compute. Qed.

(** C10: on a fresh index Get returns nil for every topic, the empty string
    included: the root carries the topic "" but its map is nil. *)
Theorem C10_Get_fresh_not_found (topic : string) : Get topic NewBST = None.
Proof.
  destruct (decide (topic = "")) as [->|Hne]; [done|].
  unfold Get, NewBST. cbn [root Get_loop].
  assert (str_eq "" topic = false) as ->.
  { apply String.eqb_neq. congruence. }
  by rewrite (str_lt_empty _ Hne).
Qed.

(** ** Defects *)

(** C5: Insert with the empty topic on a fresh index panics: the root
    matches the topic and its map is nil. *)
Theorem C5_Insert_empty_topic_panics (uuid : string) : Insert uuid "" NewBST = None.
Proof. reflexivity. Qed.

(** C2: in scenario B the call Remove(u1,orders) looks for "orders" on the
    right of the root and finds nothing; Get(orders) is still {u1,u2}. *)
Theorem C2_scenario_B_keeps_u1 :
  ∃ b, run scenario_B NewBST = Some b ∧ Get "orders" b = Some {[ "u1"; "u2" ]}.
Proof. eexists. split; [vm_compute; reflexivity|]. by vm_compute. Qed.

(** C1: after Insert(u1,a), Insert(u2,a), Remove(u2,a) the identifiers
    inserted and not removed are {u1}, but Get(a) returns {u1,u2}. *)
Theorem C1_removed_subscriber_still_listed :
  ∃ b, run two_then_leave NewBST = Some b
       ∧ Get "a" b = Some {[ "u1"; "u2" ]}
       ∧ subscribed two_then_leave "a" ∅ = {[ "u1" ]}.
Proof. eexists. split; [vm_compute; reflexivity|]. by vm_compute. Qed.

(** C3: for a topic comparing less than the topic of a node, Insert links
    the new node on the right and Get searches on the right, whereas
    removeHelper continues its search on the left. *)
Theorem C3_lesser_topic_sides (uuid topic ct : string) (cu : option loc)
    (l r : BST) (h : store) (has_parent : bool) :
  str_lt topic ct = true →
  Insert_loop uuid topic (Node ct cu l Nil) h
    = Some (Node ct cu l (Node topic (Some (map_alloc h)) Nil Nil),
            <[map_alloc h := {[uuid]}]> h)
  ∧ Get_loop topic (Node ct cu l r) = Get_loop topic r
  ∧ removeHelper uuid topic has_parent (Node ct cu l r) h
    = ('(l', h') ← removeHelper uuid topic true l h; Some (Node ct cu l' r, h')).
Proof.
  intros Hlt. destruct (str_lt_flip _ _ Hlt) as [Hne Hge].
  cbn [Insert_loop Get_loop removeHelper]. by rewrite Hne, Hge, Hlt.
Qed.

Lemma C3_lesser_topic_sides_witness :
  str_lt "a" "m" = true
  ∧ Get_loop "a" (Node "m" None (Node "a" (Some 1%positive) Nil Nil) Nil) = None
  ∧ removeHelper "u1" "a" false (Node "m" None Nil (Node "a" (Some 1%positive) Nil Nil)) ∅
    = Some (Node "m" None Nil (Node "a" (Some 1%positive) Nil Nil), ∅).
Proof.
  split; [reflexivity|]. split.
  - exact (proj1 (proj2 (C3_lesser_topic_sides "u1" "a" "m" None
      (Node "a" (Some 1%positive) Nil Nil) Nil ∅ false eq_refl))).
  - exact (proj2 (proj2 (C3_lesser_topic_sides "u1" "a" "m" None
      Nil (Node "a" (Some 1%positive) Nil Nil) ∅ false eq_refl))).
Defined.

(** Remove on a topic that no node holds changes nothing. *)
Lemma removeHelper_absent_topic (uuid topic : string) (has_parent : bool)
    (t : BST) (h : store) :
  topic ∉ topics t → removeHelper uuid topic has_parent t h = Some (t, h).
Proof.
  revert has_parent. induction t as [|ct cu l IHl r IHr]; intros has_parent; [done|].
  unfold topics. cbn [nodes removeHelper]. rewrite fmap_app, fmap_cons. cbn [fst].
  rewrite elem_of_app, elem_of_cons. intros Hnot.
  destruct (str_lt topic ct) eqn:Hlt.
  { rewrite IHl; [done|]. intros ?. apply Hnot. by left. }
  destruct (str_gt topic ct) eqn:Hgt.
  { rewrite IHr; [done|]. intros ?. apply Hnot. right. by right. }
  destruct Hnot. right. left. by apply str_trichotomy.
Qed.

(** C4: on a root for topic "a" with subscribers {u1,u2} and one child,
    Remove(u3,a) names an identifier that is not subscribed, yet the node
    is unlinked and both subscribers are lost. *)
Theorem C4_absent_identifier_drops_topic :
  ∃ b b', run shared_topic NewBST = Some b
          ∧ Get "a" b = Some {[ "u1"; "u2" ]}
          ∧ Remove "u3" "a" b = Some b'
          ∧ Get "a" b' = None
          ∧ root b' ≠ root b.
Proof.
  do 2 eexists. split; [vm_compute; reflexivity|].
  split; [by vm_compute|]. split; [vm_compute; reflexivity|].
  split; [by vm_compute|]. discriminate.
Qed.

(** C6: on a root for topic "m" with children "z" and "b", Remove(u1,m)
    copies topic and map of "b" (what traverseForMinString returns on the
    right subtree) into the root, but the node "b" stays in the right
    subtree: the topic occurs twice and the root equals its right child's
    topic. *)
Theorem C6_successor_not_deleted :
  ∃ b b' l r,
    run two_children NewBST = Some b
    ∧ root b = Node "m" (Some 1%positive) l r
    ∧ traverseForMinString r = Some ("b", Some 2%positive)
    ∧ Remove "u1" "m" b = Some b'
    ∧ root b' = Node "b" (Some 2%positive) l r
    ∧ count_topic "b" (root b') = 2.
Proof.
  do 4 eexists. split; [vm_compute; reflexivity|].
  split; [reflexivity|]. by vm_compute.
Qed.

(** ** Idempotence of Insert *)

Lemma load_insert (h : store) (p : loc) (s : gset string) :
  load (<[p := s]> h) (Some p) = s.
Proof. unfold load. by rewrite lookup_insert_eq. Qed.

Lemma map_set_twice (h h' : store) (cu : option loc) (uuid : string) :
  map_set h cu uuid = Some h' → map_set h' cu uuid = Some h'.
Proof.
  destruct cu as [p|]; [|done]. cbn [map_set]. intros ?; simplify_eq.
  rewrite load_insert, insert_insert_eq.
  by rewrite (assoc_L (∪)), (idemp_L (∪)).
Qed.

Lemma Insert_loop_leaf (uuid topic : string) (h : store) (p : loc) :
  Insert_loop uuid topic (Node topic (Some p) Nil Nil) (<[p := {[uuid]}]> h)
  = Some (Node topic (Some p) Nil Nil, <[p := {[uuid]}]> h).
Proof.
  cbn [Insert_loop]. rewrite str_eq_refl. cbn [map_set mbind option_bind].
  rewrite load_insert, insert_insert_eq.
  by rewrite (idemp_L (∪)).
Qed.

Lemma Insert_loop_not_Nil (uuid topic : string) (t t' : BST) (h h' : store) :
  Insert_loop uuid topic t h = Some (t', h') → t' ≠ Nil.
Proof.
  destruct t as [|ct cu l r]; [done|]. cbn [Insert_loop].
  repeat case_match; intros; simplify_option_eq; try done.
  all: repeat case_match; simplify_eq; done.
Qed.

Lemma Insert_loop_twice (uuid topic : string) (t t' : BST) (h h' : store) :
  Insert_loop uuid topic t h = Some (t', h') →
  Insert_loop uuid topic t' h' = Some (t', h').
Proof.
  revert t' h h'. induction t as [|ct cu l IHl r IHr]; intros t' h h'; [done|].
  rewrite Insert_loop_Node.
  destruct (str_eq ct topic) eqn:Heq.
  { destruct (map_set h cu uuid) as [h1|] eqn:Hset; [|done].
    some_inv. rewrite Insert_loop_Node, Heq.
    by rewrite (map_set_twice _ _ _ _ Hset). }
  destruct (str_lt ct topic) eqn:Hlt.
  - destruct l as [|lt lu ll lr].
    + some_inv. rewrite Insert_loop_Node, Heq, Hlt.
      by rewrite Insert_loop_leaf.
    + destruct (Insert_loop uuid topic (Node lt lu ll lr) h) as [[l1 h1]|] eqn:Hl;
        [|done].
      some_inv. pose proof (Insert_loop_not_Nil _ _ _ _ _ _ Hl) as Hnil.
      apply IHl in Hl. rewrite Insert_loop_Node, Heq, Hlt.
      destruct l1; [done|]. by rewrite Hl.
  - destruct r as [|rt ru rl rr].
    + some_inv. rewrite Insert_loop_Node, Heq, Hlt.
      by rewrite Insert_loop_leaf.
    + destruct (Insert_loop uuid topic (Node rt ru rl rr) h) as [[r1 h1]|] eqn:Hr;
        [|done].
      some_inv. pose proof (Insert_loop_not_Nil _ _ _ _ _ _ Hr) as Hnil.
      apply IHr in Hr. rewrite Insert_loop_Node, Heq, Hlt.
      destruct r1; [done|]. by rewrite Hr.
Qed.

(** C8: whenever Insert(id,T) completes, a second Insert(id,T) completes
    too and leaves the index (tree and every map) as the first left it. *)
Theorem C8_Insert_idempotent (uuid topic : string) (b b' : Storage) :
  Insert uuid topic b = Some b' → Insert uuid topic b' = Some b'.
Proof.
  unfold Insert. destruct b as [t h], b' as [t' h']. cbn [root maps].
  destruct (Insert_loop uuid topic t h) as [[t1 h1]|] eqn:Hins; [|done].
  some_inv. by rewrite (Insert_loop_twice _ _ _ _ _ _ Hins).
Qed.

Lemma C8_Insert_idempotent_witness :
  ∃ b, Insert "u1" "orders" NewBST = Some b ∧ Insert "u1" "orders" b = Some b.
Proof.
  eexists. split; [vm_compute; reflexivity|].
  apply (C8_Insert_idempotent "u1" "orders" NewBST). vm_compute; reflexivity.
Defined.

(** ** Non-empty subscriber sets *)

Lemma ref_ok_mono (h h' : store) (u : option loc) :
  dom h ⊆ dom h' → ref_ok h u → ref_ok h' u.
Proof. intros Hsub (p & -> & Hp). exists p. split; [done|]. by apply Hsub. Qed.

Lemma tree_ok_mono (k : bool) (h h' : store) (t : BST) :
  dom h ⊆ dom h' → tree_ok k h t → tree_ok k h' t.
Proof.
  intros Hsub. revert k. induction t as [|ct cu l IHl r IHr]; intros k; [done|].
  cbn [tree_ok]. intros ([Hu|Hu] & Hl & Hr); (split; [|by auto]).
  - left. by eapply ref_ok_mono.
  - by right.
Qed.

Lemma tree_ok_weaken (k : bool) (h : store) (t : BST) :
  tree_ok false h t → tree_ok k h t.
Proof.
  destruct t as [|ct cu l r]; [done|]. cbn [tree_ok].
  intros ([Hu|[? _]] & Hl & Hr); [|done]. by repeat split; [left|..].
Qed.

Lemma store_ok_insert (h : store) (p : loc) (s : gset string) :
  store_ok h → s ≠ ∅ → store_ok (<[p := s]> h).
Proof.
  intros Hok Hs q s'. rewrite lookup_insert. case_decide; [|by apply Hok].
  by intros [= <-].
Qed.

Lemma dom_insert_subseteq_store (h : store) (p : loc) (s : gset string) :
  dom h ⊆ dom (<[p := s]> h).
Proof. rewrite dom_insert_L. apply union_subseteq_r. Qed.

Lemma ref_ok_insert (h : store) (p : loc) (s : gset string) :
  ref_ok (<[p := s]> h) (Some p).
Proof.
  exists p. split; [done|]. rewrite dom_insert_L. apply elem_of_union_l.
  by apply elem_of_singleton.
Qed.

Lemma singleton_union_nonempty (k : string) (s : gset string) : {[k]} ∪ s ≠ ∅.
Proof.
  intros Hemp. apply (not_elem_of_empty (C := gset string) k).
  rewrite <- Hemp. apply elem_of_union_l. by apply elem_of_singleton.
Qed.

Lemma difference_singleton_nonempty (k : string) (s : gset string) :
  1 < size s → s ∖ {[k]} ≠ ∅.
Proof.
  intros Hsz Hemp.
  assert (s ⊆ {[k]}) as Hsub.
  { intros x Hx. destruct (decide (x = k)) as [->|Hne]; [by apply elem_of_singleton|].
    exfalso. apply (not_elem_of_empty (C := gset string) x). rewrite <- Hemp.
    apply elem_of_difference. split; [done|]. by rewrite elem_of_singleton. }
  apply subseteq_size in Hsub. rewrite size_singleton in Hsub. lia.
Qed.

(** [Insert] keeps the invariants, and never drops a map. *)
Lemma Insert_loop_inv (uuid topic : string) (k : bool) (t t' : BST) (h h' : store) :
  store_ok h → tree_ok k h t →
  Insert_loop uuid topic t h = Some (t', h') →
  store_ok h' ∧ tree_ok k h' t' ∧ dom h ⊆ dom h'.
Proof.
  revert k t' h h'. induction t as [|ct cu l IHl r IHr]; intros k t' h h' Hh Ht; [done|].
  rewrite Insert_loop_Node. destruct Ht as (Hu & Hl & Hr).
  destruct (str_eq ct topic).
  { destruct cu as [p|]; [|done]. cbn [map_set]. some_inv.
    pose proof (dom_insert_subseteq_store h p ({[uuid]} ∪ load h (Some p))) as Hsub.
    split; [apply store_ok_insert; [done|apply singleton_union_nonempty]|].
    split; [|done]. cbn [tree_ok]. split; [left; apply ref_ok_insert|].
    split; by eapply tree_ok_mono. }
  pose proof (dom_insert_subseteq_store h (map_alloc h) {[uuid]}) as Hsub.
  assert (store_ok (<[map_alloc h := {[uuid]}]> h)) as Hnew.
  { apply store_ok_insert; [done|]. rewrite <- (right_id_L ∅ (∪) {[uuid]}).
    apply singleton_union_nonempty. }
  assert (∀ u, ref_ok h u ∨ k = true ∧ u = None →
               ref_ok (<[map_alloc h := {[uuid]}]> h) u ∨ k = true ∧ u = None) as Hroot.
  { intros u [?|?]; [left; by eapply ref_ok_mono|by right]. }
  destruct (str_lt ct topic).
  - destruct l as [|lt lu ll lr].
    + some_inv. split; [done|]. split; [|done]. cbn [tree_ok].
      split; [by apply Hroot|]. split; [|by eapply tree_ok_mono].
      split; [left; apply ref_ok_insert|done].
    + destruct (Insert_loop uuid topic (Node lt lu ll lr) h) as [[l1 h1]|] eqn:Hins;
        [|done].
      some_inv. destruct (IHl false _ _ _ Hh Hl Hins) as (Hh1 & Hl1 & Hsub1).
      split; [done|]. split; [|done]. cbn [tree_ok].
      split; [destruct Hu; [left; by eapply ref_ok_mono|by right]|].
      split; [done|by eapply tree_ok_mono].
  - destruct r as [|rt ru rl rr].
    + some_inv. split; [done|]. split; [|done]. cbn [tree_ok].
      split; [by apply Hroot|]. split; [by eapply tree_ok_mono|].
      split; [left; apply ref_ok_insert|done].
    + destruct (Insert_loop uuid topic (Node rt ru rl rr) h) as [[r1 h1]|] eqn:Hins;
        [|done].
      some_inv. destruct (IHr false _ _ _ Hh Hr Hins) as (Hh1 & Hr1 & Hsub1).
      split; [done|]. split; [|done]. cbn [tree_ok].
      split; [destruct Hu; [left; by eapply ref_ok_mono|by right]|].
      split; [by eapply tree_ok_mono|done].
Qed.

(** What [traverseForMinString] returns is the map field of a node. *)
Lemma traverseForMinString_ok (h : store) (t : BST) (st : string) (su : option loc) :
  tree_ok false h t → traverseForMinString t = Some (st, su) → ref_ok h su.
Proof.
  induction t as [|ct cu l IHl r _]; [done|].
  intros ([Hu|[? _]] & Hl & _); [|done]. cbn [traverseForMinString].
  destruct l as [|lt lu ll lr]; [by intros ?; simplify_eq|]. by apply IHl.
Qed.

(** [removeHelper] keeps the invariants: it deletes an identifier only from
    a map with more than one, and every map field it writes is copied from
    a node of the tree. *)
Lemma removeHelper_inv (uuid topic : string) (has_parent k : bool)
    (t t' : BST) (h h' : store) :
  store_ok h → tree_ok k h t →
  removeHelper uuid topic has_parent t h = Some (t', h') →
  store_ok h' ∧ tree_ok k h' t' ∧ dom h ⊆ dom h'.
Proof.
  revert uuid topic has_parent k t' h h'.
  induction t as [|ct cu l IHl r IHr]; intros uuid topic has_parent k t' h h' Hh Ht.
  { cbn [removeHelper]. by some_inv. }
  rewrite removeHelper_Node. destruct Ht as (Hu & Hl & Hr).
  destruct (str_lt topic ct).
  { destruct (removeHelper uuid topic true l h) as [[l1 h1]|] eqn:Hrem; [|done].
    some_inv. destruct (IHl _ _ _ false _ _ _ Hh Hl Hrem) as (Hh1 & Hl1 & Hsub1).
    split; [done|]. split; [|done]. cbn [tree_ok].
    split; [destruct Hu; [left; by eapply ref_ok_mono|by right]|].
    split; [done|by eapply tree_ok_mono]. }
  destruct (str_gt topic ct).
  { destruct (removeHelper uuid topic true r h) as [[r1 h1]|] eqn:Hrem; [|done].
    some_inv. destruct (IHr _ _ _ false _ _ _ Hh Hr Hrem) as (Hh1 & Hr1 & Hsub1).
    split; [done|]. split; [|done]. cbn [tree_ok].
    split; [destruct Hu; [left; by eapply ref_ok_mono|by right]|].
    split; [by eapply tree_ok_mono|done]. }
  destruct ((1 <? len h cu)%nat && has_key h cu uuid) eqn:Hdel.
  { apply andb_prop in Hdel as [Hlen%Nat.ltb_lt _]. some_inv.
    destruct cu as [p|]; cbn [map_delete]; [|by repeat split].
    pose proof (dom_insert_subseteq_store h p (load h (Some p) ∖ {[uuid]})) as Hsub.
    split; [apply store_ok_insert; [done|by apply difference_singleton_nonempty]|].
    split; [|done]. cbn [tree_ok]. split; [left; apply ref_ok_insert|].
    split; by eapply tree_ok_mono. }
  destruct l as [|lt lu ll lr], r as [|rt ru rl rr].
  - destruct has_parent; some_inv; by repeat split.
  - some_inv. split; [done|]. split; [by apply tree_ok_weaken|done].
  - some_inv. split; [done|]. split; [by apply tree_ok_weaken|done].
  - destruct (traverseForMinString (Node rt ru rl rr)) as [[st su]|] eqn:Hmin; [|done].
    cbn [mbind option_bind].
    destruct (removeHelper st uuid true (Node rt ru rl rr) h) as [[r1 h1]|] eqn:Hrem;
      [|done].
    some_inv. destruct (IHr _ _ _ false _ _ _ Hh Hr Hrem) as (Hh1 & Hr1 & Hsub1).
    split; [done|]. split; [|done]. cbn [tree_ok].
    split; [left; eapply ref_ok_mono, traverseForMinString_ok; done|].
    split; [|done]. by apply (tree_ok_mono false h h' (Node lt lu ll lr)).
Qed.

(** The root node is never unlinked: without a parent, [removeHelper]
    overwrites its fields in place. *)
Lemma removeHelper_root_not_Nil (uuid topic : string) (t t' : BST) (h h' : store) :
  t ≠ Nil → removeHelper uuid topic false t h = Some (t', h') → t' ≠ Nil.
Proof.
  destruct t as [|ct cu l r]; [done|]. intros _. rewrite removeHelper_Node.
  destruct (str_lt topic ct).
  { destruct (removeHelper uuid topic true l h) as [[l1 h1]|]; [|done]. by some_inv. }
  destruct (str_gt topic ct).
  { destruct (removeHelper uuid topic true r h) as [[r1 h1]|]; [|done]. by some_inv. }
  destruct ((1 <? len h cu)%nat && has_key h cu uuid); [by some_inv|].
  destruct l as [|lt lu ll lr], r as [|rt ru rl rr]; try by some_inv.
  destruct (traverseForMinString (Node rt ru rl rr)) as [[st su]|]; [|done].
  cbn [mbind option_bind].
  destruct (removeHelper st uuid true (Node rt ru rl rr) h) as [[r1 h1]|]; [|done].
  by some_inv.
Qed.

(** Insert leaves topic and map field of the node it starts from. *)
Lemma Insert_loop_root_fields (uuid topic : string) (t t' : BST) (h h' : store) :
  Insert_loop uuid topic t h = Some (t', h') →
  root_topic t' = root_topic t ∧ root_uuids t' = root_uuids t.
Proof.
  destruct t as [|ct cu l r]; [done|]. rewrite Insert_loop_Node.
  destruct (str_eq ct topic).
  { destruct (map_set h cu uuid); [|done]. by some_inv. }
  destruct (str_lt ct topic).
  - destruct l as [|lt lu ll lr]; [by some_inv|].
    destruct (Insert_loop uuid topic (Node lt lu ll lr) h) as [[l1 h1]|]; [|done].
    by some_inv.
  - destruct r as [|rt ru rl rr]; [by some_inv|].
    destruct (Insert_loop uuid topic (Node rt ru rl rr) h) as [[r1 h1]|]; [|done].
    by some_inv.
Qed.

(** Whatever [removeHelper] writes into the fields of the root is the topic
    and the (non-nil) map of a node below it. *)
Lemma removeHelper_root_fresh (uuid topic : string) (t t' : BST) (h h' : store) :
  tree_ok true h t → root_fresh t →
  removeHelper uuid topic false t h = Some (t', h') → root_fresh t'.
Proof.
  destruct t as [|ct cu l r]; [intros _ _; cbn [removeHelper]; by some_inv|].
  intros (_ & Hl & Hr) Hfresh. rewrite removeHelper_Node.
  assert (∀ c, tree_ok false h c → c ≠ Nil → root_fresh c) as Hchild.
  { intros [|? ? ? ?]; [done|]. by intros ([(? & -> & _)|[? _]] & _) _. }
  destruct (str_lt topic ct).
  { destruct (removeHelper uuid topic true l h) as [[l1 h1]|]; [|done]. by some_inv. }
  destruct (str_gt topic ct).
  { destruct (removeHelper uuid topic true r h) as [[r1 h1]|]; [|done]. by some_inv. }
  destruct ((1 <? len h cu)%nat && has_key h cu uuid); [by some_inv|].
  destruct l as [|lt lu ll lr], r as [|rt ru rl rr]; try by some_inv.
  - some_inv. by apply Hchild.
  - some_inv. by apply Hchild.
  - destruct (traverseForMinString (Node rt ru rl rr)) as [[st su]|] eqn:Hmin; [|done].
    cbn [mbind option_bind].
    destruct (removeHelper st uuid true (Node rt ru rl rr) h) as [[r1 h1]|]; [|done].
    some_inv. destruct (traverseForMinString_ok _ _ _ _ Hr Hmin) as (p & -> & _).
    by intros ?.
Qed.

Lemma step_index_ok (c : call) (b b' : Storage) :
  index_ok b → step c b = Some b' → index_ok b'.
Proof.
  intros (Hh & Ht & Hroot & Hfresh).
  destruct c as [uuid topic|topic|uuid topic]; cbn [step].
  - unfold Insert.
    destruct (Insert_loop uuid topic (root b) (maps b)) as [[t1 h1]|] eqn:Hins; [|done].
    some_inv. unfold index_ok. cbn [root maps].
    destruct (Insert_loop_inv _ _ _ _ _ _ _ Hh Ht Hins) as (? & ? & _).
    destruct (Insert_loop_root_fields _ _ _ _ _ _ Hins) as [Htopic Hu].
    repeat split; [done..|by eapply Insert_loop_not_Nil|].
    unfold root_fresh. by rewrite Htopic, Hu.
  - by some_inv.
  - unfold Remove.
    destruct (removeHelper uuid topic false (root b) (maps b)) as [[t1 h1]|] eqn:Hrem;
      [|done].
    some_inv. unfold index_ok. cbn [root maps].
    destruct (removeHelper_inv _ _ _ _ _ _ _ _ Hh Ht Hrem) as (? & ? & _).
    repeat split; [done..|by eapply removeHelper_root_not_Nil|].
    exact (removeHelper_root_fresh _ _ _ _ _ _ Ht Hfresh Hrem).
Qed.

Lemma NewBST_index_ok : index_ok NewBST.
Proof.
  unfold index_ok, NewBST. cbn [root maps tree_ok].
  repeat split; [by intros p s|by right|done..].
Qed.

Lemma run_index_ok (cs : list call) (b b' : Storage) :
  index_ok b → run cs b = Some b' → index_ok b'.
Proof.
  revert b. induction cs as [|c cs IH]; intros b Hb; cbn [run].
  { by some_inv. }
  destruct (step c b) as [b1|] eqn:Hstep; [|done]. cbn [mbind option_bind].
  apply IH. by eapply step_index_ok.
Qed.

Lemma ref_ok_nonempty (h : store) (u : option loc) :
  store_ok h → ref_ok h u → load h u ≠ ∅.
Proof.
  intros Hh (p & -> & Hp). apply elem_of_dom in Hp as [s Hs].
  cbn [load]. rewrite Hs. by eapply Hh.
Qed.

Lemma tree_ok_nonempty (h : store) (t : BST) :
  store_ok h → tree_ok false h t → Forall (subscribers_nonempty h) (nodes t).
Proof.
  intros Hh. induction t as [|ct cu l IHl r IHr]; [by constructor|].
  intros ([Hu|[? _]] & Hl & Hr); [|done]. cbn [nodes].
  apply Forall_app. split; [by apply IHl|].
  constructor; [by apply ref_ok_nonempty|by apply IHr].
Qed.

(** C9: the fresh index is a reachable state whose root node has an empty
    (nil) subscriber set. *)
Lemma C9_fresh_root_set_empty :
  run [] NewBST = Some NewBST ∧ ¬ all_nonempty NewBST.
Proof.
  split; [done|]. unfold all_nonempty, NewBST. cbn [root maps nodes app].
  intros Hall. by apply Forall_cons_1 in Hall as [Hroot _].
Qed.

(** C9, amended: in every state reached from a fresh index, every node below
    the root has a non-empty subscriber set, the root node exists, and the
    root's set is non-empty unless its map is still the nil map of
    construction. *)
Theorem C9_nodes_below_root_nonempty (cs : list call) (b : Storage) :
  run cs NewBST = Some b →
  Forall (subscribers_nonempty (maps b)) (below_root (root b))
  ∧ root b ≠ Nil
  ∧ (root_uuids (root b) = None ∨ load (maps b) (root_uuids (root b)) ≠ ∅).
Proof.
  intros Hrun.
  destruct (run_index_ok _ _ _ NewBST_index_ok Hrun) as (Hh & Ht & Hroot & _).
  destruct (root b) as [|ct cu l r]; [done|].
  destruct Ht as (Hu & Hl & Hr). cbn [below_root root_uuids].
  split; [apply Forall_app; split; by apply tree_ok_nonempty|].
  split; [done|]. destruct Hu as [Hu|[_ ->]]; [right|by left].
  by apply ref_ok_nonempty.
Qed.

Lemma C9_nodes_below_root_nonempty_witness :
  ∃ b, run scenario_B NewBST = Some b
       ∧ Forall (subscribers_nonempty (maps b)) (below_root (root b))
       ∧ root b ≠ Nil
       ∧ (root_uuids (root b) = None ∨ load (maps b) (root_uuids (root b)) ≠ ∅).
Proof.
  eexists. split; [vm_compute; reflexivity|].
  apply (C9_nodes_below_root_nonempty scenario_B). vm_compute; reflexivity.
Defined.

(** ** When Insert completes *)

(** After a completed Insert, Get on the topic returns a map that holds the
    identifier. *)
Lemma Insert_loop_then_Get (uuid topic : string) (t t' : BST) (h h' : store) :
  Insert_loop uuid topic t h = Some (t', h') →
  ∃ p, Get_loop topic t' = Some p ∧ uuid ∈ load h' (Some p).
Proof.
  revert t' h h'. induction t as [|ct cu l IHl r IHr]; intros t' h h'; [done|].
  rewrite Insert_loop_Node.
  assert (∀ p, uuid ∈ load (<[p := {[uuid]}]> h) (Some p)) as Hmem.
  { intros p. rewrite load_insert. by apply elem_of_singleton. }
  destruct (str_eq ct topic) eqn:Heq.
  { destruct cu as [p|]; [|done]. cbn [map_set]. some_inv. exists p.
    cbn [Get_loop]. rewrite Heq. split; [done|]. rewrite load_insert.
    apply elem_of_union_l. by apply elem_of_singleton. }
  destruct (str_lt ct topic) eqn:Hlt.
  - destruct l as [|lt lu ll lr].
    + some_inv. exists (map_alloc h). cbn [Get_loop].
      rewrite Heq, Hlt, str_eq_refl. by split.
    + destruct (Insert_loop uuid topic (Node lt lu ll lr) h) as [[l1 h1]|] eqn:Hins;
        [|done].
      some_inv. destruct (IHl _ _ _ Hins) as (p & Hget & Hin). exists p.
      split; [|done]. change (Get_loop topic (Node ct cu l1 r))
        with (if str_eq ct topic then cu
              else if str_lt ct topic then Get_loop topic l1 else Get_loop topic r).
      by rewrite Heq, Hlt.
  - destruct r as [|rt ru rl rr].
    + some_inv. exists (map_alloc h). cbn [Get_loop].
      rewrite Heq, Hlt, str_eq_refl. by split.
    + destruct (Insert_loop uuid topic (Node rt ru rl rr) h) as [[r1 h1]|] eqn:Hins;
        [|done].
      some_inv. destruct (IHr _ _ _ Hins) as (p & Hget & Hin). exists p.
      split; [|done]. change (Get_loop topic (Node ct cu l r1))
        with (if str_eq ct topic then cu
              else if str_lt ct topic then Get_loop topic l else Get_loop topic r1).
      by rewrite Heq, Hlt.
Qed.

Lemma Insert_then_Get (uuid topic : string) (b b' : Storage) :
  Insert uuid topic b = Some b' → ∃ s, Get topic b' = Some s ∧ uuid ∈ s.
Proof.
  unfold Insert, Get.
  destruct (Insert_loop uuid topic (root b) (maps b)) as [[t1 h1]|] eqn:Hins; [|done].
  some_inv. cbn [root maps]. destruct (Insert_loop_then_Get _ _ _ _ _ _ Hins) as (p & -> & Hin).
  by eexists.
Qed.

(** Below the root every node holds a map, so the loop of Insert completes
    from there. *)
Lemma Insert_loop_completes (uuid topic : string) (t : BST) (h : store) :
  tree_ok false h t → t ≠ Nil → is_Some (Insert_loop uuid topic t h).
Proof.
  induction t as [|ct cu l IHl r IHr]; [done|].
  intros ([(p & -> & _)|[? _]] & Hl & Hr) _; [|done]. rewrite Insert_loop_Node.
  destruct (str_eq ct topic); [done|]. destruct (str_lt ct topic).
  - destruct l as [|lt lu ll lr]; [done|].
    by destruct (IHl Hl) as [[l1 h1] ->].
  - destruct r as [|rt ru rl rr]; [done|].
    by destruct (IHr Hr) as [[r1 h1] ->].
Qed.

(** Insert completes on every reached index unless the root still holds
    the nil map and the topic inserted is the root's. *)
Lemma Insert_completes (uuid topic : string) (b : Storage) :
  index_ok b → (root_uuids (root b) = None → topic ≠ "") →
  is_Some (Insert uuid topic b).
Proof.
  intros (Hh & Ht & Hroot & Hfresh) Htopic. unfold Insert.
  destruct (root b) as [|ct cu l r]; [done|]. rewrite Insert_loop_Node.
  destruct Ht as (Hu & Hl & Hr). destruct (str_eq ct topic) eqn:Heq.
  { destruct cu as [p|]; [done|]. apply str_eq_true in Heq as ->.
    by destruct Htopic; [|apply Hfresh]. }
  destruct (str_lt ct topic).
  - destruct l as [|lt lu ll lr]; [done|].
    by destruct (Insert_loop_completes uuid topic _ _ Hl) as [[l1 h1] ->].
  - destruct r as [|rt ru rl rr]; [done|].
    by destruct (Insert_loop_completes uuid topic _ _ Hr) as [[r1 h1] ->].
Qed.

(** In every state reached from a fresh index, Insert on a non-empty topic
    completes and the identifier is then a member of the topic's set. *)
Lemma Insert_nonempty_topic (cs : list call) (uuid topic : string) (b : Storage) :
  run cs NewBST = Some b → topic ≠ "" →
  ∃ b' s, Insert uuid topic b = Some b' ∧ Get topic b' = Some s ∧ uuid ∈ s.
Proof.
  intros Hrun Htopic. pose proof (run_index_ok _ _ _ NewBST_index_ok Hrun) as Hb.
  destruct (Insert_completes uuid topic b Hb) as [b' Hins]; [done|].
  destruct (Insert_then_Get _ _ _ _ Hins) as (s & Hget & Hin). by exists b', s.
Qed.

(** ** Remove: what it never does *)

(** X9: Remove never panics, whatever the index. *)
Lemma Remove_completes (uuid topic : string) (b : Storage) :
  is_Some (Remove uuid topic b).
Proof.
  unfold Remove.
  by destruct (removeHelper_completes uuid topic false (root b) (maps b)) as [[t h] ->].
Qed.

(** X10: Remove on a topic that no node carries leaves the index as it is. *)
Lemma Remove_absent_topic (uuid topic : string) (b : Storage) :
  topic ∉ topics (root b) → Remove uuid topic b = Some b.
Proof.
  intros Hnot. unfold Remove. rewrite removeHelper_absent_topic by done.
  by destruct b.
Qed.

Lemma Remove_absent_topic_witness :
  ∃ b, run scenario_A NewBST = Some b ∧ Remove "u1" "billing" b = Some b.
Proof.
  eexists. split; [vm_compute; reflexivity|].
  apply Remove_absent_topic. apply (bool_decide_unpack _). vm_compute. exact I.
Defined.

Lemma traverseForMinString_in_nodes (t : BST) (st : string) (su : option loc) :
  traverseForMinString t = Some (st, su) → (st, su) ∈ nodes t.
Proof.
  induction t as [|ct cu l IHl r _]; [done|]. cbn [traverseForMinString nodes].
  destruct l as [|lt lu ll lr].
  - some_inv. apply elem_of_app. right. by left.
  - intros H. apply elem_of_app. left. by apply IHl.
Qed.

Lemma elem_of_nodes_Node (n : string * option loc) (ct : string) (cu : option loc)
    (l r : BST) :
  n ∈ nodes (Node ct cu l r) ↔ n ∈ nodes l ∨ n = (ct, cu) ∨ n ∈ nodes r.
Proof. cbn [nodes]. by rewrite elem_of_app, elem_of_cons. Qed.

(** Every node in the result of [removeHelper] carries topic and map of a
    node of the tree it was given. *)
Lemma removeHelper_nodes (uuid topic : string) (has_parent : bool)
    (t t' : BST) (h h' : store) (n : string * option loc) :
  removeHelper uuid topic has_parent t h = Some (t', h') →
  n ∈ nodes t' → n ∈ nodes t.
Proof.
  revert uuid topic has_parent t' h h'.
  induction t as [|ct cu l IHl r IHr]; intros uuid topic has_parent t' h h'.
  { cbn [removeHelper]. by some_inv. }
  rewrite removeHelper_Node, (elem_of_nodes_Node n ct cu l r).
  destruct (str_lt topic ct).
  { destruct (removeHelper uuid topic true l h) as [[l1 h1]|] eqn:Hrem; [|done].
    some_inv. rewrite elem_of_nodes_Node. intros [?|?]; [left|by right].
    by eapply IHl. }
  destruct (str_gt topic ct).
  { destruct (removeHelper uuid topic true r h) as [[r1 h1]|] eqn:Hrem; [|done].
    some_inv. rewrite elem_of_nodes_Node.
    intros [?|[?|?]]; [by left|right; by left|right; right]. by eapply IHr. }
  destruct ((1 <? len h cu)%nat && has_key h cu uuid).
  { some_inv. by rewrite elem_of_nodes_Node. }
  destruct l as [|lt lu ll lr], r as [|rt ru rl rr].
  - destruct has_parent; some_inv; [by intros ?%elem_of_nil|].
    by rewrite elem_of_nodes_Node.
  - some_inv. intros ?. right. by right.
  - some_inv. intros ?. by left.
  - destruct (traverseForMinString (Node rt ru rl rr)) as [[st su]|] eqn:Hmin; [|done].
    cbn [mbind option_bind].
    destruct (removeHelper st uuid true (Node rt ru rl rr) h) as [[r1 h1]|] eqn:Hrem;
      [|done].
    some_inv. apply traverseForMinString_in_nodes in Hmin.
    rewrite elem_of_nodes_Node.
    intros [?|[->|?]]; [by left|right; by right|right; right]. by eapply IHr.
Qed.

(** X11: every node left by Remove carries the topic and the map of a node
    that was there before: Remove never creates a topic. *)
Lemma Remove_nodes (uuid topic : string) (b b' : Storage) (n : string * option loc) :
  Remove uuid topic b = Some b' → n ∈ nodes (root b') → n ∈ nodes (root b).
Proof.
  unfold Remove.
  destruct (removeHelper uuid topic false (root b) (maps b)) as [[t1 h1]|] eqn:Hrem;
    [|done].
  some_inv. cbn [root]. by eapply removeHelper_nodes.
Qed.

Lemma load_insert_ne (h : store) (p q : loc) (s : gset string) :
  p ≠ q → load (<[p := s]> h) (Some q) = load h (Some q).
Proof. intros Hne. unfold load. by rewrite lookup_insert_ne. Qed.









(** ** Insert: what it changes and what it keeps *)

Lemma map_alloc_fresh (h : store) : h !! map_alloc h = None.
Proof. apply not_elem_of_dom_1. unfold map_alloc. apply is_fresh. Qed.

(** The one write of [Insert] to the store: into the map of a node that
    carries the topic, or into a map allocated for the new node. *)
Lemma Insert_loop_store (uuid topic : string) (t t' : BST) (h h' : store) :
  Insert_loop uuid topic t h = Some (t', h') →
  ∃ q, h' = <[q := {[uuid]} ∪ load h (Some q)]> h
       ∧ (q = map_alloc h ∨ (topic, Some q) ∈ nodes t).
Proof.
  revert t' h'. induction t as [|ct cu l IHl r IHr]; intros t' h'; [done|].
  rewrite Insert_loop_Node.
  assert (load h (Some (map_alloc h)) = ∅) as Hfresh.
  { unfold load. by rewrite map_alloc_fresh. }
  assert (<[map_alloc h := {[uuid]}]> h
          = <[map_alloc h := {[uuid]} ∪ load h (Some (map_alloc h))]> h) as Hnew.
  { by rewrite Hfresh, (right_id_L ∅ (∪)). }
  destruct (str_eq ct topic) eqn:Heq.
  { apply str_eq_true in Heq as ->.
    destruct cu as [p|]; [|done]. cbn [map_set]. some_inv. exists p.
    split; [done|]. right. apply elem_of_nodes_Node. right. by left. }
  destruct (str_lt ct topic).
  - destruct l as [|lt lu ll lr].
    + some_inv. exists (map_alloc h). split; [done|by left].
    + destruct (Insert_loop uuid topic (Node lt lu ll lr) h) as [[l1 h1]|] eqn:Hins;
        [|done].
      some_inv. destruct (IHl _ _ eq_refl) as (q & Hq & [?|?]); exists q;
        (split; [done|]); [by left|right]. apply elem_of_nodes_Node. by left.
  - destruct r as [|rt ru rl rr].
    + some_inv. exists (map_alloc h). split; [done|by left].
    + destruct (Insert_loop uuid topic (Node rt ru rl rr) h) as [[r1 h1]|] eqn:Hins;
        [|done].
      some_inv. destruct (IHr _ _ eq_refl) as (q & Hq & [?|?]); exists q;
        (split; [done|]); [by left|right]. apply elem_of_nodes_Node. right. by right.
Qed.

(** The nodes after [Insert]: those before, and possibly one new node for
    the topic, holding the map just allocated. *)
Lemma Insert_loop_nodes (uuid topic : string) (t t' : BST) (h h' : store)
    (n : string * option loc) :
  Insert_loop uuid topic t h = Some (t', h') →
  (n ∈ nodes t → n ∈ nodes t')
  ∧ (n ∈ nodes t' → n ∈ nodes t ∨ n = (topic, Some (map_alloc h))).
Proof.
  revert t' h'. induction t as [|ct cu l IHl r IHr]; intros t' h'; [done|].
  rewrite Insert_loop_Node, (elem_of_nodes_Node n ct cu l r).
  destruct (str_eq ct topic).
  { destruct (map_set h cu uuid); [|done]. some_inv.
    rewrite elem_of_nodes_Node. tauto. }
  destruct (str_lt ct topic).
  - destruct l as [|lt lu ll lr].
    + some_inv. rewrite !elem_of_nodes_Node. cbn [nodes]. rewrite elem_of_nil.
      tauto.
    + destruct (Insert_loop uuid topic (Node lt lu ll lr) h) as [[l1 h1]|] eqn:Hins;
        [|done].
      some_inv. destruct (IHl _ _ eq_refl) as [Hold Hnew].
      rewrite (elem_of_nodes_Node n ct cu l1 r). tauto.
  - destruct r as [|rt ru rl rr].
    + some_inv. rewrite !elem_of_nodes_Node. cbn [nodes]. rewrite elem_of_nil.
      tauto.
    + destruct (Insert_loop uuid topic (Node rt ru rl rr) h) as [[r1 h1]|] eqn:Hins;
        [|done].
      some_inv. destruct (IHr _ _ eq_refl) as [Hold Hnew].
      rewrite (elem_of_nodes_Node n ct cu l r1). tauto.
Qed.

(** X6: Insert unlinks no node and takes no identifier out of any map. *)
Lemma Insert_keeps (uuid topic : string) (b b' : Storage) :
  Insert uuid topic b = Some b' →
  (∀ n, n ∈ nodes (root b) → n ∈ nodes (root b'))
  ∧ (∀ p, load (maps b) (Some p) ⊆ load (maps b') (Some p)).
Proof.
  unfold Insert.
  destruct (Insert_loop uuid topic (root b) (maps b)) as [[t1 h1]|] eqn:Hins; [|done].
  some_inv. cbn [root maps]. split.
  - intros n. by apply (Insert_loop_nodes _ _ _ _ _ _ n Hins).
  - destruct (Insert_loop_store _ _ _ _ _ _ Hins) as (q & -> & _). intros p.
    destruct (decide (q = p)) as [->|Hne].
    + rewrite load_insert. apply union_subseteq_r.
    + by rewrite load_insert_ne.
Qed.

Lemma Insert_keeps_witness :
  ∃ b', Insert "u1" "orders" NewBST = Some b'
        ∧ ("", None) ∈ nodes (root b').
Proof.
  eexists. split; [vm_compute; reflexivity|].
  apply (Insert_keeps "u1" "orders" NewBST); [vm_compute; reflexivity|].
  apply (bool_decide_unpack _). vm_compute. exact I.
Defined.

Lemma Get_loop_Node (topic ct : string) (cu : option loc) (l r : BST) :
  Get_loop topic (Node ct cu l r) =
  if str_eq ct topic then cu
  else if str_lt ct topic then Get_loop topic l else Get_loop topic r.
Proof. done. Qed.

Lemma Insert_loop_Get (uuid topic : string) (t t' : BST) (h h' : store) :
  Insert_loop uuid topic t h = Some (t', h') →
  Get topic (MkStorage t' h')
  = Some ({[uuid]} ∪ default ∅ (Get topic (MkStorage t h))).
Proof.
  unfold Get. cbn [root maps].
  revert t' h'. induction t as [|ct cu l IHl r IHr]; intros t' h'; [done|].
  rewrite Insert_loop_Node, (Get_loop_Node topic ct cu l r).
  assert (Get_loop topic (Node topic (Some (map_alloc h)) Nil Nil)
          = Some (map_alloc h)) as Hleaf.
  { by rewrite Get_loop_Node, str_eq_refl. }
  destruct (str_eq ct topic) eqn:Heq.
  { destruct cu as [p|]; [|done]. cbn [map_set]. some_inv.
    rewrite Get_loop_Node, Heq. cbn [mbind option_bind default].
    by rewrite load_insert. }
  destruct (str_lt ct topic) eqn:Hlt.
  - destruct l as [|lt lu ll lr].
    + some_inv. rewrite Get_loop_Node, Heq, Hlt, Hleaf.
      cbn [Get_loop mbind option_bind default].
      by rewrite load_insert, (right_id_L ∅ (∪)).
    + destruct (Insert_loop uuid topic (Node lt lu ll lr) h) as [[l1 h1]|] eqn:Hins;
        [|done].
      some_inv. rewrite (Get_loop_Node topic ct cu l1 r), Heq, Hlt. by apply IHl.
  - destruct r as [|rt ru rl rr].
    + some_inv. rewrite Get_loop_Node, Heq, Hlt, Hleaf.
      cbn [Get_loop mbind option_bind default].
      by rewrite load_insert, (right_id_L ∅ (∪)).
    + destruct (Insert_loop uuid topic (Node rt ru rl rr) h) as [[r1 h1]|] eqn:Hins;
        [|done].
      some_inv. rewrite (Get_loop_Node topic ct cu l r1), Heq, Hlt. by apply IHr.
Qed.

Lemma Insert_Get_same (uuid topic : string) (b b' : Storage) :
  Insert uuid topic b = Some b' →
  Get topic b' = Some ({[uuid]} ∪ default ∅ (Get topic b)).
Proof.
  unfold Insert.
  destruct (Insert_loop uuid topic (root b) (maps b)) as [[t1 h1]|] eqn:Hins; [|done].
  some_inv. rewrite (Insert_loop_Get _ _ _ _ _ _ Hins). by destruct b.
Qed.

(** X1: after a completed Insert(uuid, topic), Get(topic) returns what it
    returned before (nothing, if it returned nil) with uuid added. *)
Lemma Get_after_Insert (uuid topic : string) (b b' : Storage) :
  Insert uuid topic b = Some b' →
  Get topic b' = Some ({[uuid]} ∪ default ∅ (Get topic b)).
Proof. apply Insert_Get_same. Qed.

Lemma Get_after_Insert_witness :
  ∃ b', Insert "u1" "orders" NewBST = Some b' ∧ Get "orders" b' = Some {[ "u1" ]}.
Proof.
  eexists. split; [vm_compute; reflexivity|].
  rewrite (Get_after_Insert "u1" "orders" NewBST); [|vm_compute; reflexivity].
  by vm_compute.
Defined.

(** ** Insert on one topic and Get on another *)

Lemma Get_loop_in_nodes (topic : string) (t : BST) (p : loc) :
  Get_loop topic t = Some p → (topic, Some p) ∈ nodes t.
Proof.
  induction t as [|ct cu l IHl r IHr]; [done|].
  rewrite Get_loop_Node, elem_of_nodes_Node.
  destruct (str_eq ct topic) eqn:Heq.
  { apply str_eq_true in Heq as ->. intros ->. right. by left. }
  destruct (str_lt ct topic); intros ?; [left; by apply IHl|right; right; by apply IHr].
Qed.

Lemma tree_ok_dom (k : bool) (h : store) (t : BST) (x : string) (p : loc) :
  tree_ok k h t → (x, Some p) ∈ nodes t → p ∈ dom h.
Proof.
  revert k. induction t as [|ct cu l IHl r IHr]; intros k.
  { by intros _ ?%elem_of_nil. }
  intros (Hu & Hl & Hr). rewrite elem_of_nodes_Node. intros [?|[?|?]].
  - by eapply IHl.
  - simplify_eq. by destruct Hu as [(q & ? & ?)|[_ ?]]; simplify_eq.
  - by eapply IHr.
Qed.

(** The search of [Get] for another topic takes the same path after
    [Insert]: a new leaf does not carry that topic. *)
Lemma Insert_loop_Get_other (uuid topic topic' : string) (t t' : BST) (h h' : store) :
  Insert_loop uuid topic t h = Some (t', h') → topic' ≠ topic →
  Get_loop topic' t' = Get_loop topic' t.
Proof.
  intros Hins Hne. revert t' h' Hins.
  assert (∀ p, Get_loop topic' (Node topic (Some p) Nil Nil) = None) as Hleaf.
  { intros p. rewrite Get_loop_Node. cbn [Get_loop].
    destruct (str_eq topic topic') eqn:Heq; [|by destruct (str_lt topic topic')].
    apply str_eq_true in Heq. by destruct Hne. }
  induction t as [|ct cu l IHl r IHr]; intros t' h'; [done|].
  rewrite Insert_loop_Node, (Get_loop_Node topic' ct cu l r).
  destruct (str_eq ct topic).
  { destruct (map_set h cu uuid); [|done]. some_inv. by rewrite Get_loop_Node. }
  destruct (str_lt ct topic).
  - destruct l as [|lt lu ll lr].
    + some_inv. by rewrite Get_loop_Node, Hleaf.
    + destruct (Insert_loop uuid topic (Node lt lu ll lr) h) as [[l1 h1]|] eqn:Hins;
        [|done].
      some_inv. by rewrite (Get_loop_Node topic' ct cu l1 r), (IHl _ _ eq_refl).
  - destruct r as [|rt ru rl rr].
    + some_inv. by rewrite Get_loop_Node, Hleaf.
    + destruct (Insert_loop uuid topic (Node rt ru rl rr) h) as [[r1 h1]|] eqn:Hins;
        [|done].
      some_inv. by rewrite (Get_loop_Node topic' ct cu l r1), (IHr _ _ eq_refl).
Qed.

(** Where every node holds a map of the store and no map serves two
    topics, Insert on one topic leaves Get on any other topic as it was. *)
Lemma Insert_Get_other (uuid topic topic' : string) (b b' : Storage) :
  tree_ok true (maps b) (root b) → maps_keyed (root b) →
  Insert uuid topic b = Some b' → topic' ≠ topic →
  Get topic' b' = Get topic' b.
Proof.
  intros Hok Hkeyed. unfold Insert.
  destruct (Insert_loop uuid topic (root b) (maps b)) as [[t1 h1]|] eqn:Hins; [|done].
  some_inv. intros Hne. unfold Get. cbn [root maps].
  rewrite (Insert_loop_Get_other _ _ _ _ _ _ _ Hins Hne).
  destruct (Get_loop topic' (root b)) as [p|] eqn:Hget; [|done].
  cbn [mbind option_bind]. f_equal.
  apply Get_loop_in_nodes in Hget.
  destruct (Insert_loop_store _ _ _ _ _ _ Hins) as (q & -> & Hq).
  apply load_insert_ne. intros ->. destruct Hq as [->|Hq].
  - apply (tree_ok_dom _ _ _ _ _ Hok) in Hget.
    apply elem_of_dom in Hget as [s Hs]. by rewrite map_alloc_fresh in Hs.
  - by destruct Hne; apply (Hkeyed _ _ _ Hget Hq).
Qed.

Lemma Insert_loop_maps_keyed (uuid topic : string) (k : bool)
    (t t' : BST) (h h' : store) :
  tree_ok k h t → maps_keyed t →
  Insert_loop uuid topic t h = Some (t', h') → maps_keyed t'.
Proof.
  intros Hok Hkeyed Hins T1 T2 p H1 H2.
  apply (Insert_loop_nodes _ _ _ _ _ _ _ Hins) in H1, H2.
  assert (∀ T, (T, Some (map_alloc h)) ∉ nodes t) as Hfresh.
  { intros T Hin. apply (tree_ok_dom _ _ _ _ _ Hok) in Hin.
    apply elem_of_dom in Hin as [s Hs]. by rewrite map_alloc_fresh in Hs. }
  destruct H1 as [H1|H1], H2 as [H2|H2]; simplify_eq; try done.
  - by eapply Hkeyed.
  - by destruct (Hfresh T1).
  - by destruct (Hfresh T2).
Qed.

Lemma removeHelper_maps_keyed (uuid topic : string) (has_parent : bool)
    (t t' : BST) (h h' : store) :
  maps_keyed t → removeHelper uuid topic has_parent t h = Some (t', h') →
  maps_keyed t'.
Proof.
  intros Hkeyed Hrem T1 T2 p H1 H2.
  apply (removeHelper_nodes _ _ _ _ _ _ _ _ Hrem) in H1, H2. by eapply Hkeyed.
Qed.

Lemma step_maps_keyed (c : call) (b b' : Storage) :
  index_ok b → maps_keyed (root b) → step c b = Some b' → maps_keyed (root b').
Proof.
  intros (_ & Hok & _) Hkeyed.
  destruct c as [uuid topic|topic|uuid topic]; cbn [step].
  - unfold Insert.
    destruct (Insert_loop uuid topic (root b) (maps b)) as [[t1 h1]|] eqn:Hins; [|done].
    some_inv. cbn [root]. by eapply Insert_loop_maps_keyed.
  - by some_inv.
  - unfold Remove.
    destruct (removeHelper uuid topic false (root b) (maps b)) as [[t1 h1]|] eqn:Hrem;
      [|done].
    some_inv. cbn [root]. by eapply removeHelper_maps_keyed.
Qed.

Lemma run_maps_keyed (cs : list call) (b b' : Storage) :
  index_ok b → maps_keyed (root b) → run cs b = Some b' → maps_keyed (root b').
Proof.
  revert b. induction cs as [|c cs IH]; intros b Hb Hkeyed; cbn [run].
  { by some_inv. }
  destruct (step c b) as [b1|] eqn:Hstep; [|done]. cbn [mbind option_bind].
  apply IH; [by eapply step_index_ok|by eapply step_maps_keyed].
Qed.

Lemma NewBST_maps_keyed : maps_keyed (root NewBST).
Proof.
  intros T1 T2 p H1 _. cbn in H1. apply list_elem_of_singleton in H1. simplify_eq.
Qed.

(** X2: in every state reached from a fresh index, Insert on one topic
    leaves what Get returns for every other topic unchanged. *)
Lemma Insert_other_topic (cs : list call) (uuid topic topic' : string)
    (b b' : Storage) :
  run cs NewBST = Some b → Insert uuid topic b = Some b' → topic' ≠ topic →
  Get topic' b' = Get topic' b.
Proof.
  intros Hrun. apply Insert_Get_other.
  - by destruct (run_index_ok _ _ _ NewBST_index_ok Hrun) as (_ & ? & _).
  - exact (run_maps_keyed _ _ _ NewBST_index_ok NewBST_maps_keyed Hrun).
Qed.

Lemma Insert_other_topic_witness :
  ∃ b b', run scenario_A NewBST = Some b ∧ Insert "u3" "billing" b = Some b'
          ∧ Get "orders" b' = Get "orders" b.
Proof.
  do 2 eexists. split; [vm_compute; reflexivity|]. split; [vm_compute; reflexivity|].
  apply (Insert_other_topic scenario_A "u3" "billing" "orders");
    [vm_compute; reflexivity..|discriminate].
Defined.

(** ** Call sequences that never name the empty topic *)

Lemma str_lt_empty_r (a : string) : str_lt a "" = false.
Proof. by destruct a. Qed.

(** Under a root that carries the topic "" and has no right child, Remove
    looks for a non-empty topic in the right child and finds nothing. *)
Lemma removeHelper_construction_root (uuid topic : string) (has_parent : bool)
    (cu : option loc) (l : BST) (h : store) :
  topic ≠ "" →
  removeHelper uuid topic has_parent (Node "" cu l Nil) h = Some (Node "" cu l Nil, h).
Proof.
  intros Hne. rewrite removeHelper_Node, str_lt_empty_r.
  unfold str_gt. fold (str_lt "" topic). by rewrite (str_lt_empty _ Hne).
Qed.

(** Under such a root, Insert of a non-empty topic goes into the left
    child. *)
Lemma Insert_loop_construction_root (uuid topic : string) (l t' : BST) (h h' : store) :
  topic ≠ "" →
  Insert_loop uuid topic (Node "" None l Nil) h = Some (t', h') →
  ∃ l', t' = Node "" None l' Nil.
Proof.
  intros Hne. rewrite Insert_loop_Node, (str_lt_empty _ Hne).
  assert (str_eq "" topic = false) as ->.
  { apply String.eqb_neq. congruence. }
  destruct l as [|lt lu ll lr]; [some_inv; by eexists|].
  destruct (Insert_loop uuid topic (Node lt lu ll lr) h) as [[l1 h1]|]; [|done].
  some_inv. by eexists.
Qed.

Lemma run_drop_removes (cs : list call) (b : Storage) :
  Forall (λ c, call_topic c ≠ "") cs →
  (∃ l, root b = Node "" None l Nil) →
  run cs b = run (drop_removes cs) b.
Proof.
  revert b. induction cs as [|c cs IH]; intros b Hcs [l Hroot]; [done|].
  apply Forall_cons_1 in Hcs as [Hc Hcs].
  destruct c as [uuid topic|topic|uuid topic]; cbn [drop_removes run step call_topic] in *.
  - destruct (Insert uuid topic b) as [b1|] eqn:Hins; [|done].
    cbn [mbind option_bind]. apply IH; [done|]. revert Hins. unfold Insert.
    destruct (Insert_loop uuid topic (root b) (maps b)) as [[t1 h1]|] eqn:Hloop; [|done].
    some_inv. rewrite Hroot in Hloop. cbn [root].
    by eapply Insert_loop_construction_root.
  - cbn [mbind option_bind]. apply IH; [done|by exists l].
  - unfold Remove. rewrite Hroot, removeHelper_construction_root by done.
    cbn [mbind option_bind]. rewrite <- Hroot.
    replace (MkStorage (root b) (maps b)) with b by (by destruct b).
    apply IH; [done|by exists l].
Qed.

(** X14: from a fresh index, a call sequence that never names the empty
    topic ends in the state it reaches with every Remove call left out. *)
Lemma Remove_without_effect (cs : list call) :
  Forall (λ c, call_topic c ≠ "") cs →
  run cs NewBST = run (drop_removes cs) NewBST.
Proof. intros Hcs. apply run_drop_removes; [done|by exists Nil]. Qed.

Lemma Remove_without_effect_witness :
  run scenario_B NewBST = run scenario_A NewBST.
Proof.
  apply (Remove_without_effect scenario_B).
  repeat (constructor; [discriminate|]). constructor.
Defined.

Lemma Get_NewBST (topic : string) : Get topic NewBST = None.
Proof.
  destruct (decide (topic = "")) as [->|Hne]; [done|].
  unfold Get, NewBST. cbn [root]. rewrite Get_loop_Node, (str_lt_empty _ Hne).
  assert (str_eq "" topic = false) as ->; [|done].
  apply String.eqb_neq. congruence.
Qed.

Lemma merge_insert_same (o : option (gset string)) (uuid : string) (s : gset string) :
  merge (Some ({[uuid]} ∪ default ∅ o)) s = merge o ({[uuid]} ∪ s).
Proof.
  unfold merge. destruct (decide ({[uuid]} ∪ s = ∅)) as [Hemp|_].
  { by destruct (singleton_union_nonempty uuid s). }
  destruct (decide (s = ∅)) as [->|_]; cbn [default]; f_equal.
  - by rewrite (right_id_L ∅ (∪)), (comm_L (∪)).
  - by rewrite (assoc_L (∪)), (comm_L (∪) {[uuid]}).
Qed.

(** Inserts and Gets from a state as [run] reaches them: every call
    completes, and Get returns what it returned before with the identifiers
    inserted since. *)
Lemma run_inserts (cs : list call) (b : Storage) :
  index_ok b → maps_keyed (root b) →
  Forall (λ c, call_topic c ≠ "") cs →
  ∃ b', run (drop_removes cs) b = Some b'
        ∧ ∀ T, Get T b' = merge (Get T b) (inserted cs T).
Proof.
  revert b. induction cs as [|c cs IH]; intros b Hb Hkeyed Hcs.
  { exists b. split; [done|]. intros T. unfold merge. cbn [inserted].
    by destruct (decide (∅ = ∅)). }
  apply Forall_cons_1 in Hcs as [Hc Hcs].
  destruct c as [uuid topic|topic|uuid topic]; cbn [drop_removes run step inserted call_topic] in *.
  - destruct (Insert_completes uuid topic b Hb) as [b1 Hins]; [done|].
    rewrite Hins. cbn [mbind option_bind].
    assert (step (CInsert uuid topic) b = Some b1) as Hstep by done.
    destruct (IH b1) as (b' & Hrun & Hget);
      [by eapply step_index_ok|by eapply step_maps_keyed|done|].
    exists b'. split; [done|]. intros T. rewrite Hget.
    destruct (decide (topic = T)) as [<-|Hne].
    + rewrite (Insert_Get_same _ _ _ _ Hins). apply merge_insert_same.
    + rewrite (left_id_L ∅ (∪)). f_equal.
      destruct Hb as (_ & Hok & _). by eapply Insert_Get_other.
  - by apply IH.
  - by apply IH.
Qed.

(** X15: from a fresh index, after a call sequence that never names the empty
    topic, every call has completed and Get(T) returns exactly the
    identifiers ever inserted on T, removed or not (nil if there are none). *)
Lemma Get_returns_inserted (cs : list call) :
  Forall (λ c, call_topic c ≠ "") cs →
  ∃ b, run cs NewBST = Some b
       ∧ ∀ T, Get T b =
              if decide (inserted cs T = ∅) then None else Some (inserted cs T).
Proof.
  intros Hcs. rewrite (run_drop_removes cs NewBST Hcs) by (by exists Nil).
  destruct (run_inserts cs NewBST NewBST_index_ok NewBST_maps_keyed Hcs)
    as (b & Hrun & Hget).
  exists b. split; [done|]. intros T. rewrite Hget, Get_NewBST. unfold merge.
  destruct (decide (inserted cs T = ∅)); [done|].
  cbn [default]. by rewrite (left_id_L ∅ (∪)).
Qed.

(** ** The order Insert builds *)

Lemma str_lt_trans (a b c : string) :
  str_lt a b = true → str_lt b c = true → str_lt a c = true.
Proof.
  unfold str_lt, String.ltb.
  pose proof (OrderedTypeEx.String_as_OT.cmp_lt a b) as Hab.
  pose proof (OrderedTypeEx.String_as_OT.cmp_lt b c) as Hbc.
  pose proof (OrderedTypeEx.String_as_OT.cmp_lt a c) as Hac.
  unfold OrderedTypeEx.String_as_OT.cmp in *.
  destruct (String.compare a b); [done| |done].
  destruct (String.compare b c); [done| |done]. intros _ _.
  assert (String.compare a c = Lt) as ->; [|done].
  apply Hac. eapply OrderedTypeEx.String_as_OT.lt_trans; [by apply Hab|by apply Hbc].
Qed.

Lemma elem_of_topics (x : string) (t : BST) :
  x ∈ topics t ↔ ∃ u, (x, u) ∈ nodes t.
Proof.
  unfold topics. rewrite list_elem_of_fmap. split.
  - intros ([y u] & -> & Hin). by exists u.
  - intros [u Hin]. by exists (x, u).
Qed.

Lemma elem_of_topics_Node (x ct : string) (cu : option loc) (l r : BST) :
  x ∈ topics (Node ct cu l r) ↔ x ∈ topics l ∨ x = ct ∨ x ∈ topics r.
Proof.
  unfold topics. cbn [nodes]. rewrite fmap_app, fmap_cons, elem_of_app, elem_of_cons.
  done.
Qed.

Lemma Insert_loop_topics (uuid topic : string) (t t' : BST) (h h' : store) (x : string) :
  Insert_loop uuid topic t h = Some (t', h') →
  x ∈ topics t' → x ∈ topics t ∨ x = topic.
Proof.
  intros Hins. rewrite !elem_of_topics. intros [u Hin].
  apply (Insert_loop_nodes _ _ _ _ _ _ _ Hins) in Hin as [Hin|Hin].
  - left. by exists u.
  - right. by simplify_eq.
Qed.

Lemma Insert_loop_ordered (uuid topic : string) (t t' : BST) (h h' : store) :
  ordered t → Insert_loop uuid topic t h = Some (t', h') → ordered t'.
Proof.
  revert t' h'. induction t as [|ct cu l IHl r IHr]; intros t' h'; [done|].
  intros (Hl & Hr & Hol & Hor). rewrite Insert_loop_Node.
  destruct (str_eq ct topic) eqn:Heq.
  { destruct (map_set h cu uuid); [|done]. by some_inv. }
  destruct (str_lt ct topic) eqn:Hlt.
  - destruct l as [|lt lu ll lr].
    + some_inv. cbn. repeat split; by repeat constructor.
    + destruct (Insert_loop uuid topic (Node lt lu ll lr) h) as [[l1 h1]|] eqn:Hins;
        [|done].
      some_inv. cbn [ordered].
      split; [|split; [done|split; [exact (IHl _ _ Hol eq_refl)|done]]].
      apply Forall_forall. intros x Hx.
      apply (Insert_loop_topics _ _ _ _ _ _ _ Hins) in Hx as [Hx| ->]; [|done].
      by eapply Forall_forall in Hl.
  - assert (str_lt topic ct = true) as Hgt.
    { destruct (str_lt topic ct) eqn:Hgt; [done|].
      rewrite (str_trichotomy ct topic Hlt Hgt) in Heq. by rewrite str_eq_refl in Heq. }
    destruct r as [|rt ru rl rr].
    + some_inv. cbn. repeat split; by repeat constructor.
    + destruct (Insert_loop uuid topic (Node rt ru rl rr) h) as [[r1 h1]|] eqn:Hins;
        [|done].
      some_inv. cbn [ordered].
      split; [done|]. split; [|split; [done|exact (IHr _ _ Hor eq_refl)]].
      apply Forall_forall. intros x Hx.
      apply (Insert_loop_topics _ _ _ _ _ _ _ Hins) in Hx as [Hx| ->]; [|done].
      by eapply Forall_forall in Hr.
Qed.

Lemma ordered_NoDup (t : BST) : ordered t → NoDup (topics t).
Proof.
  induction t as [|ct cu l IHl r IHr]; [intros _; apply NoDup_nil_2|].
  intros (Hl & Hr & Hol & Hor). unfold topics. cbn [nodes].
  rewrite fmap_app, fmap_cons. cbn [fst]. fold (topics l) (topics r).
  rewrite Forall_forall in Hl, Hr.
  apply NoDup_app. split; [by apply IHl|]. split.
  - intros x Hx. rewrite elem_of_cons. intros [->|Hxr].
    + apply Hl in Hx. by rewrite str_lt_irrefl in Hx.
    + apply Hl in Hx. apply Hr in Hxr.
      destruct (str_lt_flip _ _ Hx) as [_ Hflip]. congruence.
  - apply NoDup_cons. split; [|by apply IHr].
    intros Hx. apply Hr in Hx. by rewrite str_lt_irrefl in Hx.
Qed.

(** X7: Insert keeps the tree in its order (greater topics to the left,
    lesser ones to the right), and in such a tree no topic has two nodes. *)
Lemma Insert_ordered (uuid topic : string) (b b' : Storage) :
  ordered (root b) → Insert uuid topic b = Some b' →
  ordered (root b') ∧ NoDup (topics (root b')).
Proof.
  intros Hord. unfold Insert.
  destruct (Insert_loop uuid topic (root b) (maps b)) as [[t1 h1]|] eqn:Hins; [|done].
  some_inv. cbn [root].
  assert (ordered t1) by (by eapply Insert_loop_ordered).
  split; [done|by apply ordered_NoDup].
Qed.

Lemma Insert_ordered_witness :
  ∃ b', Insert "u1" "orders" NewBST = Some b' ∧ NoDup (topics (root b')).
Proof.
  eexists. split; [vm_compute; reflexivity|].
  apply (Insert_ordered "u1" "orders" NewBST); [|vm_compute; reflexivity].
  cbn. repeat split; constructor.
Defined.

Lemma Get_loop_ordered (topic : string) (cu : option loc) (t : BST) :
  ordered t → (topic, cu) ∈ nodes t → Get_loop topic t = cu.
Proof.
  induction t as [|ct cu0 l IHl r IHr]; [by intros _ ?%elem_of_nil|].
  intros (Hl & Hr & Hol & Hor). rewrite Forall_forall in Hl, Hr.
  rewrite elem_of_nodes_Node, Get_loop_Node. intros [Hin|[Heq|Hin]].
  - assert (str_lt ct topic = true) as Hlt.
    { apply Hl, elem_of_topics. by exists cu. }
    rewrite Hlt. destruct (str_eq ct topic) eqn:Heq; [|by apply IHl].
    apply str_eq_true in Heq as ->. by rewrite str_lt_irrefl in Hlt.
  - simplify_eq. by rewrite str_eq_refl.
  - assert (str_lt topic ct = true) as Hlt.
    { apply Hr, elem_of_topics. by exists cu. }
    destruct (str_lt_flip _ _ Hlt) as [-> ->]. by apply IHr.
Qed.

(** X8: in a tree ordered as Insert builds it, Get finds every node: for a
    node carrying [topic] it returns that node's map. *)
Lemma Get_finds_node (topic : string) (p : loc) (b : Storage) :
  ordered (root b) → (topic, Some p) ∈ nodes (root b) →
  Get topic b = Some (load (maps b) (Some p)).
Proof.
  intros Hord Hin. unfold Get. by rewrite (Get_loop_ordered _ _ _ Hord Hin).
Qed.

Lemma Get_finds_node_witness :
  ∃ b, run scenario_A NewBST = Some b
       ∧ Get "alerts" b = Some (load (maps b) (Some 2%positive)).
Proof.
  eexists. split; [vm_compute; reflexivity|].
  apply (Get_finds_node "alerts" 2%positive).
  - cbn. repeat split; by repeat constructor.
  - apply (bool_decide_unpack _). vm_compute. exact I.
Defined.

(** In a tree ordered as Insert builds it, the leftmost node, which
    [traverseForMinString] returns, carries the greatest topic. *)
Lemma traverseForMinString_ordered (t : BST) (st : string) (su : option loc) (x : string) :
  ordered t → traverseForMinString t = Some (st, su) →
  x ∈ topics t → x = st ∨ str_lt x st = true.
Proof.
  revert x. induction t as [|ct cu l IHl r _]; intros x; [done|].
  intros (Hl & Hr & Hol & _). rewrite Forall_forall in Hl, Hr.
  cbn [traverseForMinString]. rewrite elem_of_topics_Node.
  destruct l as [|lt lu ll lr].
  - some_inv. intros [?%elem_of_nil|[->|Hx]]; [done|by left|right; by apply Hr].
  - intros Hmin.
    assert (str_lt ct st = true) as Hct.
    { apply Hl, elem_of_topics. exists su. by apply traverseForMinString_in_nodes. }
    intros [Hx|[->|Hx]]; [by apply IHl|by right|right].
    eapply str_lt_trans; [by apply Hr|done].
Qed.

(** X16: in a tree ordered as Insert builds it, traverseForMinString returns
    topic and map of a node of the tree, and that topic is the greatest of
    the tree. *)
Lemma traverseForMinString_greatest (t : BST) (st : string) (su : option loc) :
  ordered t → traverseForMinString t = Some (st, su) →
  (st, su) ∈ nodes t ∧ ∀ x, x ∈ topics t → x = st ∨ str_lt x st = true.
Proof.
  intros Hord Hmin. split; [by apply traverseForMinString_in_nodes|].
  intros x. by apply traverseForMinString_ordered with su.
Qed.

Lemma traverseForMinString_greatest_witness :
  ∃ b l r, run two_children NewBST = Some b ∧ root b = Node "m" (Some 1%positive) l r
           ∧ traverseForMinString (root b) = Some ("z", Some 3%positive)
           ∧ ∀ x, x ∈ topics (root b) → x = "z" ∨ str_lt x "z" = true.
Proof.
  do 3 eexists. split; [vm_compute; reflexivity|]. split; [reflexivity|].
  split; [reflexivity|].
  apply (traverseForMinString_greatest _ "z" (Some 3%positive)); [|reflexivity].
  cbn. repeat split; by repeat constructor.
Defined.

(** X17: in every state reached from a fresh index, two nodes that hold the
    same map carry the same topic. *)
Lemma shared_map_same_topic (cs : list call) (b : Storage) (T1 T2 : string) (p : loc) :
  run cs NewBST = Some b →
  (T1, Some p) ∈ nodes (root b) → (T2, Some p) ∈ nodes (root b) → T1 = T2.
Proof.
  intros Hrun. exact (run_maps_keyed _ _ _ NewBST_index_ok NewBST_maps_keyed Hrun T1 T2 p).
Qed.

Lemma shared_map_same_topic_witness :
  ∃ b, run (two_children ++ [CRemove "u1" "m"]) NewBST = Some b
       ∧ nodes (root b)
         = [("z", Some 3%positive); ("b", Some 2%positive); ("b", Some 2%positive)]
       ∧ "b" = "b".
Proof.
  eexists. split; [vm_compute; reflexivity|].
  match goal with
  | |- nodes (root ?b) = _ ∧ _ =>
      split; [reflexivity|];
      apply (shared_map_same_topic (two_children ++ [CRemove "u1" "m"]) b
               "b" "b" 2%positive);
      [vm_compute; reflexivity|apply (bool_decide_unpack _); vm_compute; exact I..]
  end.
Defined.

(** X3: from a fresh index, Insert panics exactly when the topic is empty
    and the root still holds the nil map. *)
Lemma Insert_panics_iff (cs : list call) (uuid topic : string) (b : Storage) :
  run cs NewBST = Some b →
  Insert uuid topic b = None ↔ topic = "" ∧ root_uuids (root b) = None.
Proof.
  intros Hrun. pose proof (run_index_ok _ _ _ NewBST_index_ok Hrun) as Hb. split.
  - intros Hins. destruct (decide (topic = "")) as [->|Hne].
    + split; [done|]. destruct (root_uuids (root b)) as [p|] eqn:Hu; [|done].
      destruct (Insert_completes uuid "" b Hb) as [b' Hb']; [by rewrite Hu|congruence].
    + destruct (Insert_completes uuid topic b Hb) as [b' Hb']; [done|congruence].
  - intros [-> Hu]. destruct Hb as (_ & _ & _ & Hfresh). specialize (Hfresh Hu).
    unfold Insert. destruct (root b) as [|ct cu l r]; [done|].
    cbn in Hu, Hfresh. subst ct cu. by rewrite Insert_loop_Node.
Qed.

Lemma Insert_panics_iff_witness :
  Insert "u1" "" NewBST = None ↔ "" = "" ∧ root_uuids (root NewBST) = None.
Proof. apply (Insert_panics_iff [] "u1" "" NewBST). reflexivity. Defined.

Lemma Get_returns_inserted_witness :
  ∃ b, run scenario_B NewBST = Some b
       ∧ ∀ T, Get T b =
              if decide (inserted scenario_B T = ∅) then None
              else Some (inserted scenario_B T).
Proof.
  apply (Get_returns_inserted scenario_B).
  repeat (constructor; [discriminate|]). constructor.
Defined.

Lemma Insert_nonempty_topic_witness :
  ∃ b' s, Insert "u9" "news" NewBST = Some b' ∧ Get "news" b' = Some s ∧ "u9" ∈ s.
Proof. apply (Insert_nonempty_topic [] "u9" "news" NewBST); [reflexivity|discriminate]. Defined.

(** ** Insert on a topic that is there *)

Lemma Insert_loop_found (uuid topic : string) (t : BST) (q : loc) (h : store) :
  Get_loop topic t = Some q →
  Insert_loop uuid topic t h = Some (t, <[q := {[uuid]} ∪ load h (Some q)]> h).
Proof.
  induction t as [|ct cu l IHl r IHr]; [done|].
  rewrite Get_loop_Node, Insert_loop_Node. destruct (str_eq ct topic).
  { by intros ->. }
  destruct (str_lt ct topic).
  - destruct l as [|lt lu ll lr]; [done|]. intros Hget. by rewrite (IHl Hget).
  - destruct r as [|rt ru rl rr]; [done|]. intros Hget. by rewrite (IHr Hget).
Qed.

(** X4: Insert on a topic for which Get returns a map completes, leaves the
    tree as it is and adds the identifier to that map. *)
Lemma Insert_existing_topic (uuid topic : string) (b : Storage) (s : gset string) :
  Get topic b = Some s →
  ∃ b', Insert uuid topic b = Some b' ∧ root b' = root b
        ∧ Get topic b' = Some ({[uuid]} ∪ s).
Proof.
  unfold Get, Insert. destruct (Get_loop topic (root b)) as [q|] eqn:Hget; [|done].
  some_inv. rewrite (Insert_loop_found uuid _ _ _ (maps b) Hget).
  eexists. split; [done|]. cbn [root maps]. split; [done|].
  by rewrite Hget; cbn [mbind option_bind]; rewrite load_insert.
Qed.

Lemma Insert_existing_topic_witness :
  ∃ b, run scenario_A NewBST = Some b
       ∧ ∃ b', Insert "u7" "alerts" b = Some b' ∧ root b' = root b
               ∧ Get "alerts" b' = Some ({[ "u7" ]} ∪ {[ "u1" ]}).
Proof.
  eexists. split; [vm_compute; reflexivity|].
  apply (Insert_existing_topic "u7" "alerts"). by vm_compute.
Defined.

(** The tree that [Insert] returns and the map it writes depend on the
    topic only, not on the identifier. *)
Lemma Insert_loop_shape (uuid topic : string) (t t' : BST) (h h' : store) :
  Insert_loop uuid topic t h = Some (t', h') →
  ∃ q, Get_loop topic t' = Some q
       ∧ ∀ u, Insert_loop u topic t h
              = Some (t', <[q := {[u]} ∪ load h (Some q)]> h).
Proof.
  revert t' h'. induction t as [|ct cu l IHl r IHr]; intros t' h'; [done|].
  rewrite Insert_loop_Node.
  assert (load h (Some (map_alloc h)) = ∅) as Hfresh.
  { unfold load. by rewrite map_alloc_fresh. }
  assert (Get_loop topic (Node topic (Some (map_alloc h)) Nil Nil)
          = Some (map_alloc h)) as Hleaf.
  { by rewrite Get_loop_Node, str_eq_refl. }
  destruct (str_eq ct topic) eqn:Heq.
  { destruct cu as [p|]; [|done]. cbn [map_set]. some_inv. exists p.
    rewrite Get_loop_Node, Heq. split; [done|]. intros u.
    by rewrite Insert_loop_Node, Heq. }
  destruct (str_lt ct topic) eqn:Hlt.
  - destruct l as [|lt lu ll lr].
    + some_inv. exists (map_alloc h). rewrite Get_loop_Node, Heq, Hlt.
      split; [done|]. intros u.
      by rewrite Insert_loop_Node, Heq, Hlt, Hfresh, (right_id_L ∅ (∪)).
    + destruct (Insert_loop uuid topic (Node lt lu ll lr) h) as [[l1 h1]|] eqn:Hins;
        [|done].
      some_inv. destruct (IHl _ _ eq_refl) as (q & Hget & Hall). exists q.
      rewrite Get_loop_Node, Heq, Hlt. split; [done|]. intros u.
      by rewrite Insert_loop_Node, Heq, Hlt, (Hall u).
  - destruct r as [|rt ru rl rr].
    + some_inv. exists (map_alloc h). rewrite Get_loop_Node, Heq, Hlt.
      split; [done|]. intros u.
      by rewrite Insert_loop_Node, Heq, Hlt, Hfresh, (right_id_L ∅ (∪)).
    + destruct (Insert_loop uuid topic (Node rt ru rl rr) h) as [[r1 h1]|] eqn:Hins;
        [|done].
      some_inv. destruct (IHr _ _ eq_refl) as (q & Hget & Hall). exists q.
      rewrite Get_loop_Node, Heq, Hlt. split; [done|]. intros u.
      by rewrite Insert_loop_Node, Heq, Hlt, (Hall u).
Qed.

(** X5: two identifiers inserted on one topic give the same index in either
    order. *)
Lemma Insert_same_topic_comm (u1 u2 topic : string) (b b1 b12 : Storage) :
  Insert u1 topic b = Some b1 → Insert u2 topic b1 = Some b12 →
  ∃ b2, Insert u2 topic b = Some b2 ∧ Insert u1 topic b2 = Some b12.
Proof.
  unfold Insert.
  destruct (Insert_loop u1 topic (root b) (maps b)) as [[t1 h1]|] eqn:Hins; [|done].
  some_inv. cbn [root maps].
  destruct (Insert_loop_shape _ _ _ _ _ _ Hins) as (q & Hget & Hall).
  rewrite (Hall u1) in Hins. simplify_eq.
  rewrite (Insert_loop_found u2 _ _ _ _ Hget), (Hall u2). some_inv.
  eexists. split; [done|]. cbn [root maps].
  rewrite (Insert_loop_found u1 _ _ _ _ Hget). cbn [mbind option_bind].
  rewrite !load_insert, !insert_insert_eq. do 3 f_equal.
  by rewrite !(assoc_L (∪)), (comm_L (∪) {[u1]}).
Qed.

Lemma Insert_same_topic_comm_witness :
  ∃ b1 b12 b2, Insert "u1" "orders" NewBST = Some b1
               ∧ Insert "u2" "orders" b1 = Some b12
               ∧ Insert "u2" "orders" NewBST = Some b2
               ∧ Insert "u1" "orders" b2 = Some b12.
Proof.
  destruct (Insert_same_topic_comm "u1" "u2" "orders" NewBST
              (MkStorage (Node "" None (Node "orders" (Some 1%positive) Nil Nil) Nil)
                 {[ 1%positive := {[ "u1" ]} ]})
              (MkStorage (Node "" None (Node "orders" (Some 1%positive) Nil Nil) Nil)
                 {[ 1%positive := {[ "u1"; "u2" ]} ]}))
    as (b2 & H2 & H12); [by vm_compute..|].
  eexists _, _, b2. split; [|split; [|split; [exact H2|exact H12]]]; by vm_compute.
Defined.

(** ** Trusted subnets: parseCIDRs and IsTrusted *)

Section TrustedSubnets.
Context `{N : Net}.

(** The subnets of [ss] parse, in order, to the networks [nets]. *)
Local Abbreviation parse_all ss nets :=
  (Forall2 (λ (s : string) (n : IPNet), ParseCIDR s = inr n) ss nets).

Lemma foldl_slice_append (cs : option (list IPNet)) (nets : list IPNet) :
  default [] (foldl slice_append cs nets) = (default [] cs ++ nets)%list.
Proof.
  revert cs. induction nets as [|n nets IH]; intros cs; cbn [foldl].
  { by rewrite app_nil_r. }
  rewrite IH. unfold slice_append. cbn. by rewrite <- app_assoc.
Qed.

Lemma parseCIDRs_loop_app (pre rest : list string) (nets : list IPNet)
    (cs : option (list IPNet)) :
  parse_all pre nets →
  parseCIDRs_loop (pre ++ rest) cs = parseCIDRs_loop rest (foldl slice_append cs nets).
Proof.
  intros Hpre. revert cs. induction Hpre as [|s n pre nets Hs _ IH]; intros cs; [done|].
  cbn [app parseCIDRs_loop foldl]. by rewrite Hs, IH.
Qed.

Lemma parseCIDRs_loop_ok (subnets : list string) (cs cs' : option (list IPNet)) :
  parseCIDRs_loop subnets cs = (cs', None) →
  ∃ nets, parse_all subnets nets ∧ cs' = foldl slice_append cs nets.
Proof.
  revert cs. induction subnets as [|s subnets IH]; intros cs; cbn [parseCIDRs_loop].
  { intros ?; simplify_eq. exists []. by split; [constructor|]. }
  destruct (ParseCIDR s) as [e|n] eqn:Hs; [done|].
  intros (nets & Hall & ->)%IH. exists (n :: nets). by split; [constructor|].
Qed.

Lemma parseCIDRs_loop_err (subnets : list string) (cs cs' : option (list IPNet))
    (e : error) :
  parseCIDRs_loop subnets cs = (cs', Some e) →
  ∃ pre bad post nets,
    subnets = (pre ++ bad :: post)%list ∧ parse_all pre nets
    ∧ ParseCIDR bad = inl e ∧ cs' = foldl slice_append cs nets.
Proof.
  revert cs. induction subnets as [|s subnets IH]; intros cs; cbn [parseCIDRs_loop].
  { done. }
  destruct (ParseCIDR s) as [e'|n] eqn:Hs.
  - intros ?; simplify_eq. exists [], s, subnets, []. by repeat split; [constructor|..].
  - intros (pre & bad & post & nets & -> & Hall & Hbad & ->)%IH.
    exists (s :: pre), bad, post, (n :: nets). by repeat split; [constructor|..].
Qed.

(** What [IsTrusted] answers: nil and empty [cidrs] alike trust nothing. *)
Lemma IsTrusted_true (c : Config) (ip : string) :
  IsTrusted c ip = true ↔
  ∃ i n, ParseIP ip = Some i ∧ n ∈ default [] (cidrs c) ∧ Contains n i = true.
Proof.
  unfold IsTrusted. destruct (cidrs c) as [nets|]; cbn [default].
  - destruct (ParseIP ip) as [i|].
    + rewrite existsb_exists. setoid_rewrite <- list_elem_of_In. split.
      * intros (n & Hn & Hc). by exists i, n.
      * intros (i' & n & ? & Hn & Hc). simplify_eq. by exists n.
    + split; [done|]. by intros (i & n & ? & _).
  - split; [done|]. by intros (i & n & _ & ?%elem_of_nil & _).
Qed.

(** X18: parseCIDRs returns nil exactly when every trusted subnet parses. *)
Lemma parseCIDRs_ok_iff (c : Config) :
  (parseCIDRs c).2 = None ↔
  ∀ s, s ∈ TrustedSubnets c → ∃ n, ParseCIDR s = inr n.
Proof.
  unfold parseCIDRs.
  destruct (parseCIDRs_loop (TrustedSubnets c) (cidrs c)) as [cs' [e|]] eqn:Hloop;
    cbn [snd]; split; try done.
  - intros Hall. exfalso.
    apply parseCIDRs_loop_err in Hloop as (pre & bad & post & nets & Hs & _ & Hbad & _).
    destruct (Hall bad) as [n Hn]; [|congruence].
    rewrite Hs. apply elem_of_app. right. by left.
  - intros _ s Hs. apply parseCIDRs_loop_ok in Hloop as (nets & Hall & _).
    apply list_elem_of_lookup in Hs as [k Hk].
    destruct (Forall2_lookup_l _ _ _ _ _ Hall Hk) as (n & _ & Hn). by exists n.
Qed.


(** X20: parseCIDRs only appends: an address trusted before is trusted
    after, also when parseCIDRs returns an error. *)
Lemma parseCIDRs_keeps_trust (c : Config) (ip : string) :
  IsTrusted c ip = true → IsTrusted (parseCIDRs c).1 ip = true.
Proof.
  rewrite !IsTrusted_true. intros (i & n & Hi & Hn & Hc). exists i, n.
  split; [done|]. split; [|done]. unfold parseCIDRs.
  destruct (parseCIDRs_loop (TrustedSubnets c) (cidrs c)) as [cs' [e|]] eqn:Hloop;
    cbn [fst cidrs].
  - apply parseCIDRs_loop_err in Hloop as (? & ? & ? & nets & _ & _ & _ & ->).
    rewrite foldl_slice_append. apply elem_of_app. by left.
  - apply parseCIDRs_loop_ok in Hloop as (nets & _ & ->).
    rewrite foldl_slice_append. apply elem_of_app. by left.
Qed.

(** X21: when a trusted subnet fails to parse, parseCIDRs returns its error
    and leaves in [cidrs] the networks of the subnets before it. *)
Lemma parseCIDRs_error_partial (c : Config) (pre post : list string) (bad : string)
    (nets : list IPNet) (e : error) :
  TrustedSubnets c = (pre ++ bad :: post)%list →
  parse_all pre nets → ParseCIDR bad = inl e →
  parseCIDRs c
  = (MkConfig _ (TrustedSubnets c) (foldl slice_append (cidrs c) nets), Some e).
Proof.
  intros Hs Hpre Hbad. unfold parseCIDRs.
  rewrite Hs at 1. rewrite (parseCIDRs_loop_app _ _ _ _ Hpre).
  cbn [parseCIDRs_loop]. by rewrite Hbad.
Qed.
End TrustedSubnets.


Lemma parseCIDRs_keeps_trust_witness :
  ∃ c', @parseCIDRs prefix_net two_subnets = (c', None)
        ∧ @IsTrusted prefix_net c' "10.0.0.1" = true
        ∧ @IsTrusted prefix_net (@parseCIDRs prefix_net c').1 "10.0.0.1" = true.
Proof.
  eexists. split; [vm_compute; reflexivity|]. split; [vm_compute; reflexivity|].
  apply (@parseCIDRs_keeps_trust prefix_net). vm_compute; reflexivity.
Defined.

Lemma parseCIDRs_error_partial_witness :
  @parseCIDRs prefix_net broken_subnet
  = (@MkConfig prefix_net ["10."; ""; "172."] (Some ["10."]),
     Some "invalid CIDR address").
Proof.
  apply (@parseCIDRs_error_partial prefix_net broken_subnet ["10."] ["172."] ""
           ["10."] "invalid CIDR address");
    [reflexivity|by repeat constructor|reflexivity].
Defined.

Lemma Remove_nodes_witness :
  ∃ b, run shared_topic NewBST = Some b
       ∧ ∃ b', Remove "u3" "a" b = Some b'
               ∧ ("b", Some 2%positive) ∈ nodes (root b).
Proof.
  eexists. split; [vm_compute; reflexivity|]. eexists. split; [vm_compute; reflexivity|].
  eapply (Remove_nodes "u3" "a"); [vm_compute; reflexivity|].
  apply (bool_decide_unpack _). vm_compute. exact I.
Defined.
